(** * Transceiver coverage routes: a shallow embedding of [main.py]

    The module models the [Transceiver] class (coverage radius, the two
    geometric predicates, the class-level registry [__all]), the generator
    [generate_possible_routes] with its two shared mutable lists, and the
    orchestrator [find_route].

    Numbers.  Coordinates and powers are JSON numbers; the arithmetic of the
    predicates is idealised over the real numbers [R] ([math.sqrt] is
    [sqrt], [math.pi] is [PI]), so rounding, underflow and overflow of
    Python floats are outside this development.  [math.sqrt] raises
    [ValueError] below zero, where [sqrt] is 0: the model is about powers
    that are not negative, as the loader is to guarantee.

    Objects.  Every [Transceiver] is created by [__init__], which appends
    it to the registry and stores the new registry length in [nr]; the
    registry only grows, so two live objects have different [nr].  Python's
    [is] and the default [==] (used by [in]) are therefore modelled by
    equality of [nr].

    Logging.  [covers_point] also emits a [logging.info] record; the log is
    not part of the model. *)

From Stdlib Require Import List Arith Lia Bool.
From Stdlib Require Import Reals Lra.
Import ListNotations.

Local Open Scope R_scope.

(** ** Points and transceivers *)

Record Point : Type := mkPoint { x : R; y : R }.

Record Transceiver : Type := mkTransceiver {
  location : Point;
  power : R;
  nr : nat
}.

(** [REC_MIN_DENSITY = 1] *)
Definition REC_MIN_DENSITY : R := 1.

(** [range]: [math.sqrt(self.power / self.REC_MIN_DENSITY / (4 * math.pi))] *)
Definition range (self : Transceiver) : R :=
  sqrt (power self / REC_MIN_DENSITY / (4 * PI)).

(** Boolean reading of Python's [<=] on numbers. *)
Definition Rleb (a b : R) : bool := if Rle_dec a b then true else false.

(** [covers_point]:
    [(point.x - self.location.x) ** 2 + (point.y - self.location.y) ** 2
       <= self.range ** 2] *)
Definition covers_point (self : Transceiver) (point : Point) : bool :=
  Rleb ((x point - x (location self)) ^ 2 + (y point - y (location self)) ^ 2)
       (range self ^ 2).

(** [is_neighbour]:
    [(other.location.x - self.location.x) ** 2
       + (other.location.y - self.location.y) ** 2
       <= (self.range + other.range) ** 2] *)
Definition is_neighbour (self other : Transceiver) : bool :=
  Rleb ((x (location other) - x (location self)) ^ 2
        + (y (location other) - y (location self)) ^ 2)
       ((range self + range other) ^ 2).

(** [self is t], and [==] on transceivers: object identity. *)
Definition same_object (a b : Transceiver) : bool := Nat.eqb (nr a) (nr b).

(** [t in l] for a list of transceivers. *)
Definition py_in (t : Transceiver) (l : list Transceiver) : bool :=
  existsb (same_object t) l.

(** ** The registry [Transceiver.__all] *)

Definition registry := list Transceiver.

(** [__init__]: build the object, append it to [__all], number it with the
    new length.  Returns the object and the registry after the call. *)
Definition Transceiver_init (all : registry) (loc : Point) (pw : R)
  : Transceiver * registry :=
  let self := mkTransceiver loc pw (S (length all)) in
  (self, all ++ [self]).

(** [neighbours]:
    [filter(lambda t: self.is_neighbour(t) and self is not t, self.all)] *)
Definition neighbours (all : registry) (self : Transceiver) : list Transceiver :=
  filter (fun t => is_neighbour self t && negb (same_object self t)) all.

(** ** Routes and the generator *)

Definition route := list Transceiver.

(** The two lists every (recursive) generator of one traversal shares. *)
Record store : Type := mkStore {
  routes : list route;
  visited : list Transceiver
}.

(** What running a piece of the program can end in. *)
Inductive outcome (A : Type) : Type :=
| Done (a : A)
| IndexError
| OutOfFuel.
Arguments Done {A} a.
Arguments IndexError {A}.
Arguments OutOfFuel {A}.

(** [l or d] on lists: an empty list is falsy. *)
Definition py_or {A : Type} (l d : list A) : list A :=
  match l with [] => d | _ => l end.

(** The same for an optional argument whose default is [None]. *)
Definition py_or_arg {A : Type} (l : option (list A)) (d : list A) : list A :=
  match l with None => d | Some l' => py_or l' d end.

(** [route[-1]] *)
Fixpoint last_item (r : route) : option Transceiver :=
  match r with
  | [] => None
  | [t] => Some t
  | _ :: r' => last_item r'
  end.

(** The body of [for transceiver in last.neighbours].  [rec] runs the
    nested generator [transceiver.generate_possible_routes(routes, visited)]
    on the store and returns what it yielded and the store it left.  The
    result lists the routes yielded, in order. *)
Fixpoint for_neighbours (rec : Transceiver -> store -> outcome (list route * store))
    (rt : route) (ts : list Transceiver) (st : store)
  : outcome (list route * store) :=
  match ts with
  | [] => Done ([], st)
  | transceiver :: ts' =>
      if py_in transceiver (visited st) then for_neighbours rec rt ts' st
      else
        let new_route := rt ++ [transceiver] in
        let st1 := mkStore (routes st ++ [new_route])
                           (visited st ++ [transceiver]) in
        match rec transceiver st1 with
        | Done (ys, st2) =>
            match for_neighbours rec rt ts' st2 with
            | Done (zs, st3) => Done (new_route :: ys ++ zs, st3)
            | IndexError => IndexError
            | OutOfFuel => OutOfFuel
            end
        | IndexError => IndexError
        | OutOfFuel => OutOfFuel
        end
  end.

(** [for route in routes], from position [i] of the list, which grows
    while the loop runs.  The nested call receives the two shared lists;
    both were appended to just before, so its [routes or [[self]]] and
    [visited or [self]] give back the very same objects and the callee's
    appends are the caller's. *)
Fixpoint for_routes (all : registry) (fuel : nat) (i : nat) (st : store)
  : outcome (list route * store) :=
  match fuel with
  | O => OutOfFuel
  | S fuel' =>
      match nth_error (routes st) i with
      | None => Done ([], st)
      | Some rt =>
          match last_item rt with
          | None => IndexError
          | Some last =>
              match for_neighbours
                      (fun self st1 =>
                         for_routes all fuel' 0
                           (mkStore (py_or (routes st1) [[self]])
                                    (py_or (visited st1) [self])))
                      rt (neighbours all last) st with
              | Done (ys, st') =>
                  match for_routes all fuel' (S i) st' with
                  | Done (zs, st'') => Done (ys ++ zs, st'')
                  | IndexError => IndexError
                  | OutOfFuel => OutOfFuel
                  end
              | IndexError => IndexError
              | OutOfFuel => OutOfFuel
              end
          end
      end
  end.

(** [generate_possible_routes(self, routes=None, visited=None)], run to
    exhaustion: the routes it yields, in order, and the final store. *)
Definition generate_possible_routes (all : registry) (fuel : nat)
    (self : Transceiver) (routes0 : option (list route))
    (visited0 : option (list Transceiver))
  : outcome (list route * store) :=
  for_routes all fuel 0
    (mkStore (py_or_arg routes0 [[self]]) (py_or_arg visited0 [self])).

(** ** The orchestrator *)

Record TransceiverData : Type := mkTData { d_location : Point; d_power : R }.

Record Data : Type := mkData {
  transceivers : list TransceiverData;
  A : Point;
  B : Point
}.

(** [[Transceiver(t["location"], t["power"]) for t in data['transceivers']]] *)
Fixpoint build (all : registry) (ds : list TransceiverData)
  : list Transceiver * registry :=
  match ds with
  | [] => ([], all)
  | d :: ds' =>
      let (t, all1) := Transceiver_init all (d_location d) (d_power d) in
      let (ts, all2) := build all1 ds' in
      (t :: ts, all2)
  end.

(** The inner loop of [find_route] over the routes of one generator: the
    first route whose last transceiver covers [point_b]. *)
Fixpoint first_covering (ys : list route) (point_b : Point)
  : outcome (option route) :=
  match ys with
  | [] => Done None
  | rt :: ys' =>
      match last_item rt with
      | None => IndexError
      | Some last =>
          if covers_point last point_b then Done (Some rt)
          else first_covering ys' point_b
      end
  end.

(** The outer loop of [find_route] over the start transceivers.  The
    generator is consumed lazily by the program; it is run to exhaustion
    here, which gives the same answer because it always finishes (see
    [for_routes_total]). *)
Fixpoint search (all : registry) (fuel : nat) (starts : list Transceiver)
    (point_b : Point) : outcome (option route) :=
  match starts with
  | [] => Done None
  | transceiver :: starts' =>
      match generate_possible_routes all fuel transceiver None None with
      | Done (ys, _) =>
          match first_covering ys point_b with
          | Done None => search all fuel starts' point_b
          | r => r
          end
      | IndexError => IndexError
      | OutOfFuel => OutOfFuel
      end
  end.

(** [find_route(data)], called when the registry holds [all]: the result
    and the registry it leaves behind. *)
Definition find_route (all : registry) (fuel : nat) (data : Data)
  : outcome (option route) * registry :=
  let (ts, all') := build all (transceivers data) in
  let start_transceivers := filter (fun t => covers_point t (A data)) ts in
  (search all' fuel start_transceivers (B data), all').

(** ** Properties of routes and stores *)

(** Every consecutive pair of the route is a neighbour pair. *)
Fixpoint linked (r : route) : Prop :=
  match r with
  | a :: (b :: _) as r' => is_neighbour a b = true /\ linked r'
  | _ => True
  end.

(** A route of a traversal started at [start], with [vs] the visited list:
    it begins at [start], is linked, repeats no object, and all its
    transceivers are in the visited list. *)
Definition route_ok (start : Transceiver) (vs : list Transceiver) (r : route)
  : Prop :=
  hd_error r = Some start
  /\ linked r
  /\ NoDup (map nr r)
  /\ (forall t, In t r -> py_in t vs = true).

Definition store_ok (start : Transceiver) (st : store) : Prop :=
  Forall (route_ok start (visited st)) (routes st).

(** No route of the store is empty, so [route[-1]] is defined. *)
Definition routes_nonempty (st : store) : Prop :=
  Forall (fun r : route => r <> []) (routes st).

(** The visited list holds each object once, and only registered ones. *)
Definition visited_ok (all : registry) (st : store) : Prop :=
  NoDup (map nr (visited st)) /\ incl (map nr (visited st)) (map nr all).

(** The registered transceivers not yet visited. *)
Definition unvisited (all : registry) (vs : list Transceiver) : list Transceiver :=
  filter (fun t => negb (py_in t vs)) all.

(** How a piece of the traversal moves the termination measure: routes
    stay non-empty, the worklist only grows, and each route added uses up
    one unvisited transceiver. *)
Definition measure_post (all : registry) (st : store) (ys : list route)
    (st' : store) : Prop :=
  incl (routes st) (routes st')
  /\ routes_nonempty st'
  /\ (length (routes st') + length (unvisited all (visited st'))
      <= length (routes st) + length (unvisited all (visited st)))%nat
  /\ (length (unvisited all (visited st'))
      <= length (unvisited all (visited st)))%nat
  /\ (length (routes st) <= length (routes st'))%nat.

(** The store a call with default arguments starts from. *)
Definition initial_store (self : Transceiver) : store :=
  mkStore [[self]] [self].

(** Fuel that always suffices for a traversal over the registry [all]. *)
Definition enough_fuel (all : registry) : nat :=
  (length all + 1) * (length all + 2).

(** The overlap graph on the registry [all]: [b] is reached from [a] along
    neighbour links between distinct registered transceivers. *)
Inductive connected (all : registry) : Transceiver -> Transceiver -> Prop :=
| connected_refl : forall a, connected all a a
| connected_step : forall a b c,
    connected all a b ->
    In c all -> is_neighbour b c = true -> same_object b c = false ->
    connected all a c.

(** Every route of the worklist ends at a transceiver reached from
    [start] in the overlap graph on [all]. *)
Definition store_reach (all : registry) (start : Transceiver) (st : store)
  : Prop :=
  Forall (fun r : route =>
            exists l, last_item r = Some l /\ connected all start l)
         (routes st).

(** No start transceiver is connected, in the overlap graph on [all], to a
    registered transceiver that covers [b]. *)
Definition separated (all : registry) (starts : list Transceiver) (b : Point)
  : Prop :=
  forall s t, In s starts -> In t all -> covers_point t b = true ->
              ~ connected all s t.

(** ** Further properties of the registry and the traversal *)

(** The registry as [__init__] keeps it: the transceiver at position [i]
    (from 0) carries the number [i + 1]. *)
Definition numbered (all : registry) : Prop :=
  map nr all = seq 1 (length all).

(** All neighbours of the last transceiver of [r] are in the visited list:
    the loop over the routes has nothing left to do for [r]. *)
Definition closed (all : registry) (st : store) (r : route) : Prop :=
  forall l t, last_item r = Some l -> In t (neighbours all l) ->
              py_in t (visited st) = true.

(** What a piece of the traversal appends: the yielded routes to the
    worklist, their last transceivers to the visited list. *)
Definition trace_post (st : store) (ys : list route) (st' : store) : Prop :=
  routes st' = routes st ++ ys
  /\ exists vs, visited st' = visited st ++ vs
                /\ map last_item ys = map Some vs.

(** No route of [ys] ends at a transceiver that covers [b]. *)
Definition none_covers (ys : list route) (b : Point) : Prop :=
  forall r l, In r ys -> last_item r = Some l -> covers_point l b = false.

(** ** Example datasets

    All transceivers lie on the x axis and have power 100, which gives a
    squared range of [25 / PI] (between 6.25 and 8.34). *)

Definition on_axis (c : R) (n : nat) : Transceiver :=
  mkTransceiver (mkPoint c 0) 100 n.

Definition axis_data (c : R) : TransceiverData := mkTData (mkPoint c 0) 100.

(** Two overlapping circles; A is the first centre, B the second. *)
Definition pair_data : Data :=
  mkData [axis_data 0; axis_data 4] (mkPoint 0 0) (mkPoint 4 0).

(** One circle that contains both A and B. *)
Definition single_data : Data :=
  mkData [axis_data 0] (mkPoint 0 0) (mkPoint 1 0).

(** One circle half way between A and B, containing neither. *)
Definition bridge_data : Data :=
  mkData [axis_data 4] (mkPoint 0 0) (mkPoint 8 0).

(** Two circles too far apart to overlap; A and B are their centres. *)
Definition apart_data : Data :=
  mkData [axis_data 0; axis_data 8] (mkPoint 0 0) (mkPoint 8 0).

(** ** Geometry *)

Lemma Rleb_true_iff (a b : R) : Rleb a b = true <-> a <= b.
Proof.
  unfold Rleb. destruct (Rle_dec a b) as [Hle | Hnle]; split; intro H;
    try reflexivity; try assumption; try discriminate.
  contradiction.
Qed.

Lemma Rleb_false_iff (a b : R) : Rleb a b = false <-> b < a.
Proof.
  unfold Rleb. destruct (Rle_dec a b) as [Hle | Hnle]; split; intro H;
    try reflexivity; try discriminate; lra.
Qed.

Lemma four_pi_pos : 0 < 4 * PI.
Proof. generalize PI_RGT_0; lra. Qed.

Lemma pi_gt_3 : 3 < PI.
Proof. generalize PI2_3_2; lra. Qed.

(** The square of the range, without the square root. *)
Lemma range_sqr (t : Transceiver) :
  0 <= power t -> range t ^ 2 = power t / (4 * PI).
Proof.
  intro Hp. unfold range, REC_MIN_DENSITY.
  replace (power t / 1) with (power t) by lra.
  simpl. rewrite Rmult_1_r. apply sqrt_sqrt.
  unfold Rdiv. apply Rmult_le_pos; [assumption|].
  left. apply Rinv_0_lt_compat. exact four_pi_pos.
Qed.

Lemma range_nonneg (t : Transceiver) : 0 <= range t.
Proof. unfold range. apply sqrt_pos. Qed.

(** C6. [range] is [sqrt (power / REC_MIN_DENSITY / (4 PI))] with the fixed
    constant [REC_MIN_DENSITY = 1]; it depends on the power only, and a
    positive power gives a positive range. *)
Theorem range_formula (t : Transceiver) :
  range t = sqrt (power t / REC_MIN_DENSITY / (4 * PI))
  /\ REC_MIN_DENSITY = 1
  /\ (forall u : Transceiver, power u = power t -> range u = range t)
  /\ (0 < power t -> 0 < range t).
Proof.
  split; [reflexivity|]. split; [reflexivity|]. split.
  - intros u Hu. unfold range. rewrite Hu. reflexivity.
  - intro Hp. unfold range, REC_MIN_DENSITY. apply sqrt_lt_R0.
    apply Rdiv_lt_0_compat; [lra | exact four_pi_pos].
Qed.

Lemma range_formula_witness :
  0 < power (mkTransceiver (mkPoint 0 0) 100 1)
  /\ 0 < range (mkTransceiver (mkPoint 0 0) 100 1).
Proof.
  split.
  - simpl. lra.
  - apply (range_formula (mkTransceiver (mkPoint 0 0) 100 1)). simpl. lra.
Defined.

(** C7. [covers_point] answers true exactly when the squared distance from
    the point to the location is at most the squared range; a point whose
    distance equals the range is covered. *)
Theorem covers_point_iff (t : Transceiver) (p : Point) :
  (covers_point t p = true <->
     (x p - x (location t)) ^ 2 + (y p - y (location t)) ^ 2 <= range t ^ 2)
  /\ (sqrt ((x p - x (location t)) ^ 2 + (y p - y (location t)) ^ 2) = range t
      -> covers_point t p = true).
Proof.
  split.
  - unfold covers_point. apply Rleb_true_iff.
  - intro Hd. unfold covers_point. apply Rleb_true_iff.
    rewrite <- Hd. right.
    set (d2 := (x p - x (location t)) ^ 2 + (y p - y (location t)) ^ 2).
    assert (Hd2 : 0 <= d2).
    { unfold d2. generalize (pow2_ge_0 (x p - x (location t))).
      generalize (pow2_ge_0 (y p - y (location t))). lra. }
    replace (sqrt d2 ^ 2) with (sqrt d2 * sqrt d2) by ring.
    symmetry. apply sqrt_sqrt. exact Hd2.
Qed.

(** The point one range to the right of a transceiver is at distance
    exactly its range. *)
Lemma boundary_distance (t : Transceiver) :
  sqrt ((x (mkPoint (x (location t) + range t) (y (location t)))
         - x (location t)) ^ 2
        + (y (mkPoint (x (location t) + range t) (y (location t)))
           - y (location t)) ^ 2)
  = range t.
Proof.
  cbn [x y].
  replace ((x (location t) + range t - x (location t)) ^ 2
           + (y (location t) - y (location t)) ^ 2)
    with (range t ^ 2) by ring.
  apply sqrt_pow2. apply range_nonneg.
Qed.

Lemma covers_point_iff_witness :
  sqrt ((x (mkPoint (x (location (on_axis 0 1)) + range (on_axis 0 1))
                    (y (location (on_axis 0 1))))
         - x (location (on_axis 0 1))) ^ 2
        + (y (mkPoint (x (location (on_axis 0 1)) + range (on_axis 0 1))
                      (y (location (on_axis 0 1))))
           - y (location (on_axis 0 1))) ^ 2)
  = range (on_axis 0 1)
  /\ covers_point (on_axis 0 1)
       (mkPoint (x (location (on_axis 0 1)) + range (on_axis 0 1))
                (y (location (on_axis 0 1)))) = true.
Proof.
  split; [exact (boundary_distance (on_axis 0 1))|].
  apply (covers_point_iff (on_axis 0 1)
           (mkPoint (x (location (on_axis 0 1)) + range (on_axis 0 1))
                    (y (location (on_axis 0 1))))).
  exact (boundary_distance (on_axis 0 1)).
Defined.

(** C8. [is_neighbour] compares the squared distance of the two locations
    with the square of the sum of the ranges, and gives the same answer
    with the two transceivers exchanged. *)
Theorem is_neighbour_symmetric (a b : Transceiver) :
  is_neighbour a b = is_neighbour b a
  /\ (is_neighbour a b = true <->
        (x (location b) - x (location a)) ^ 2
        + (y (location b) - y (location a)) ^ 2
        <= (range a + range b) ^ 2).
Proof.
  split.
  - unfold is_neighbour. f_equal; ring.
  - unfold is_neighbour. apply Rleb_true_iff.
Qed.

(** ** Lists, identity and the visited set *)

Lemma py_or_snoc {A : Type} (l d : list A) (a : A) : py_or (l ++ [a]) d = l ++ [a].
Proof. destruct l; reflexivity. Qed.

Lemma last_item_snoc (r : route) (t : Transceiver) : last_item (r ++ [t]) = Some t.
Proof.
  induction r as [| a r IH]; [reflexivity|].
  simpl. destruct (r ++ [t]) eqn:E; [destruct r; discriminate | exact IH].
Qed.

Lemma last_item_nonempty (r : route) : r <> [] -> exists t, last_item r = Some t.
Proof.
  induction r as [| a r IH]; [congruence|]. intros _.
  destruct r as [| b r]; [exists a; reflexivity|].
  destruct IH as [t Ht]; [discriminate|]. exists t. exact Ht.
Qed.

Lemma same_object_refl (t : Transceiver) : same_object t t = true.
Proof. apply Nat.eqb_refl. Qed.

Lemma py_in_iff (t : Transceiver) (l : list Transceiver) :
  py_in t l = true <-> In (nr t) (map nr l).
Proof.
  unfold py_in. rewrite existsb_exists. split.
  - intros [u [Hu Heq]]. apply Nat.eqb_eq in Heq. rewrite Heq.
    apply in_map. exact Hu.
  - intro H. apply in_map_iff in H as [u [Heq Hu]].
    exists u. split; [exact Hu|]. apply Nat.eqb_eq. symmetry. exact Heq.
Qed.

Lemma py_in_false_iff (t : Transceiver) (l : list Transceiver) :
  py_in t l = false <-> ~ In (nr t) (map nr l).
Proof.
  rewrite <- py_in_iff. destruct (py_in t l); split; intro H;
    solve [congruence | exfalso; apply H; reflexivity].
Qed.

Lemma py_in_app (t : Transceiver) (l l' : list Transceiver) :
  py_in t l = true -> py_in t (l ++ l') = true.
Proof.
  rewrite !py_in_iff, map_app, in_app_iff. intro H. left. exact H.
Qed.

Lemma py_in_self (t : Transceiver) (l : list Transceiver) :
  py_in t (l ++ [t]) = true.
Proof.
  rewrite py_in_iff, map_app, in_app_iff. right. left. reflexivity.
Qed.

Lemma neighbours_In (all : registry) (self t : Transceiver) :
  In t (neighbours all self) ->
  In t all /\ is_neighbour self t = true /\ same_object self t = false.
Proof.
  unfold neighbours. rewrite filter_In, andb_true_iff, negb_true_iff. tauto.
Qed.

Lemma linked_snoc (r : route) (l t : Transceiver) :
  linked r -> last_item r = Some l -> is_neighbour l t = true ->
  linked (r ++ [t]).
Proof.
  induction r as [| a r IH]; [discriminate|].
  intros Hl Hlast Hn. destruct r as [| b r].
  - injection Hlast as ->. simpl. split; [exact Hn | exact I].
  - destruct Hl as [Hab Hl]. split; [exact Hab|].
    apply IH; assumption.
Qed.

Lemma filter_length_lt {A : Type} (p q : A -> bool) (l : list A) (a : A) :
  (forall u, q u = true -> p u = true) ->
  In a l -> p a = true -> q a = false ->
  (length (filter q l) < length (filter p l))%nat.
Proof.
  intros Hqp. induction l as [| u l IH]; [intros []|].
  assert (Hle : (length (filter q l) <= length (filter p l))%nat).
  { clear IH. induction l as [| v l IHl]; [apply Nat.le_refl|].
    simpl. destruct (q v) eqn:Eq.
    - rewrite (Hqp v Eq). simpl. lia.
    - destruct (p v); simpl; lia. }
  intros [-> | Hin] Hp Hq; simpl.
  - rewrite Hp, Hq. simpl. lia.
  - specialize (IH Hin Hp Hq). destruct (q u) eqn:Eq.
    + rewrite (Hqp u Eq). simpl. lia.
    + destruct (p u); simpl; lia.
Qed.

Lemma unvisited_snoc (all : registry) (vs : list Transceiver) (t : Transceiver) :
  In t all -> py_in t vs = false ->
  (length (unvisited all (vs ++ [t])) < length (unvisited all vs))%nat.
Proof.
  intros Hin Hnot. unfold unvisited. apply filter_length_lt with (a := t).
  - intros u Hu. apply negb_true_iff in Hu. apply negb_true_iff.
    destruct (py_in u vs) eqn:E; [|reflexivity].
    rewrite (py_in_app u vs [t] E) in Hu. discriminate.
  - exact Hin.
  - rewrite Hnot. reflexivity.
  - rewrite py_in_self. reflexivity.
Qed.

Lemma unvisited_length (all : registry) (vs : list Transceiver) :
  (length (unvisited all vs) <= length all)%nat.
Proof. unfold unvisited. apply filter_length_le. Qed.

(** ** A proof rule for the traversal

    [Inv] is an invariant of the shared store and [Post st ys st'] relates
    the store before a piece of the traversal, the routes it yields and the
    store after it.  The rule says: if [Post] holds of doing nothing and of
    one visit, and composes, then it holds of every finished run. *)

Section TraversalRule.

Variable all : registry.
Variable Inv : store -> Prop.
Variable Post : store -> list route -> store -> Prop.

Hypothesis Post_nil : forall st, Inv st -> Post st [] st.
Hypothesis Post_app : forall st ys st' zs st'',
    Post st ys st' -> Post st' zs st'' -> Post st (ys ++ zs) st''.
Hypothesis Post_inv : forall st ys st', Inv st -> Post st ys st' -> Inv st'.
Hypothesis Post_grows : forall st ys st',
    Post st ys st' -> incl (routes st) (routes st').
Hypothesis Post_visit : forall st rt last t,
    Inv st -> In rt (routes st) -> last_item rt = Some last ->
    In t (neighbours all last) -> py_in t (visited st) = false ->
    Post st [rt ++ [t]]
         (mkStore (routes st ++ [rt ++ [t]]) (visited st ++ [t])).

Lemma for_neighbours_rule
    (rec : Transceiver -> store -> outcome (list route * store))
    (rt : route) (last : Transceiver) :
  (forall t rs r vs v ys st',
      Inv (mkStore (rs ++ [r]) (vs ++ [v])) ->
      rec t (mkStore (rs ++ [r]) (vs ++ [v])) = Done (ys, st') ->
      Post (mkStore (rs ++ [r]) (vs ++ [v])) ys st') ->
  last_item rt = Some last ->
  forall ts st ys st',
    incl ts (neighbours all last) -> Inv st -> In rt (routes st) ->
    for_neighbours rec rt ts st = Done (ys, st') ->
    Post st ys st'.
Proof.
  intros Hrec Hlast. induction ts as [| t ts IH]; intros st ys st' Hts HI Hrt Hrun.
  - simpl in Hrun. injection Hrun as <- <-. apply Post_nil. exact HI.
  - simpl in Hrun.
    assert (Hts' : incl ts (neighbours all last)).
    { intros u Hu. apply Hts. right. exact Hu. }
    destruct (py_in t (visited st)) eqn:Evis.
    + apply IH; assumption.
    + assert (Hstep := Post_visit st rt last t HI Hrt Hlast
                         (Hts t (or_introl eq_refl)) Evis).
      set (st1 := mkStore (routes st ++ [rt ++ [t]]) (visited st ++ [t])) in *.
      assert (HI1 : Inv st1) by (eapply Post_inv; eassumption).
      destruct (rec t st1) as [[ys1 st2] | |] eqn:Erec; try discriminate.
      assert (Hrec1 : Post st1 ys1 st2) by (apply (Hrec t); assumption).
      assert (HI2 : Inv st2) by (eapply Post_inv; eassumption).
      assert (Hrt2 : In rt (routes st2)).
      { eapply Post_grows; [exact Hrec1|].
        eapply Post_grows; [exact Hstep|]. exact Hrt. }
      destruct (for_neighbours rec rt ts st2) as [[zs st3] | |] eqn:Erest;
        try discriminate.
      injection Hrun as <- <-.
      change ((rt ++ [t]) :: ys1 ++ zs) with ([rt ++ [t]] ++ (ys1 ++ zs)).
      eapply Post_app; [exact Hstep|].
      eapply Post_app; [exact Hrec1|].
      apply IH; assumption.
Qed.

Lemma for_routes_rule :
  forall fuel i st ys st',
    Inv st -> for_routes all fuel i st = Done (ys, st') -> Post st ys st'.
Proof.
  induction fuel as [| fuel IH]; intros i st ys st' HI Hrun; [discriminate|].
  simpl in Hrun.
  destruct (nth_error (routes st) i) as [rt|] eqn:Ert.
  - destruct (last_item rt) as [last|] eqn:Elast; [|discriminate].
    match type of Hrun with
    | context [for_neighbours ?r rt _ st] => set (rec := r) in *
    end.
    destruct (for_neighbours rec rt (neighbours all last) st)
      as [[ys1 st1] | |] eqn:Einner; try discriminate.
    assert (Hinner : Post st ys1 st1).
    { apply (for_neighbours_rule rec rt last) with (ts := neighbours all last);
        try assumption.
      - intros t rs r vs v ys0 st0 HI0 Hrec. unfold rec in Hrec.
        cbn [routes visited] in Hrec. rewrite !py_or_snoc in Hrec.
        apply (IH 0%nat); assumption.
      - apply incl_refl.
      - eapply nth_error_In. exact Ert. }
    destruct (for_routes all fuel (S i) st1) as [[zs st2] | |] eqn:Enext;
      try discriminate.
    injection Hrun as <- <-.
    eapply Post_app; [exact Hinner|].
    apply (IH (S i)); [|exact Enext].
    eapply Post_inv; eassumption.
  - injection Hrun as <- <-. apply Post_nil. exact HI.
Qed.

End TraversalRule.

(** ** What a finished run leaves in the store *)

(** The routes appended to the worklist are exactly the routes yielded, and
    the transceivers appended to the visited list are their last elements. *)
Lemma for_routes_trace (all : registry) (fuel i : nat) (st st' : store)
    (ys : list route) :
  for_routes all fuel i st = Done (ys, st') ->
  routes st' = routes st ++ ys
  /\ exists vs, visited st' = visited st ++ vs
                /\ map last_item ys = map Some vs.
Proof.
  apply (for_routes_rule all (fun _ => True)
           (fun st ys st' =>
              routes st' = routes st ++ ys
              /\ exists vs, visited st' = visited st ++ vs
                            /\ map last_item ys = map Some vs)).
  - intros s _. split; [symmetry; apply app_nil_r|].
    exists []. split; [symmetry; apply app_nil_r | reflexivity].
  - intros s ys1 s1 zs s2 [Hr1 [vs1 [Hv1 Hl1]]] [Hr2 [vs2 [Hv2 Hl2]]].
    split.
    + rewrite Hr2, Hr1. symmetry. apply app_assoc.
    + exists (vs1 ++ vs2). split.
      * rewrite Hv2, Hv1. symmetry. apply app_assoc.
      * rewrite !map_app, Hl1, Hl2. reflexivity.
  - intros; exact I.
  - intros s ys1 s1 [Hr _]. rewrite Hr. apply incl_appl, incl_refl.
  - intros s rt last t _ _ _ _ _. split; [reflexivity|].
    exists [t]. split; [reflexivity|]. simpl. rewrite last_item_snoc. reflexivity.
  - exact I.
Qed.

Lemma route_ok_snoc (all : registry) (start : Transceiver)
    (vs : list Transceiver) (rt : route) (last t : Transceiver) :
  route_ok start vs rt -> last_item rt = Some last ->
  In t (neighbours all last) -> py_in t vs = false ->
  route_ok start (vs ++ [t]) (rt ++ [t]).
Proof.
  intros [Hhd [Hl [Hnd Hvis]]] Hlast Hnb Hnot.
  apply neighbours_In in Hnb as [_ [Hnb _]].
  split; [|split; [|split]].
  - destruct rt; [discriminate | exact Hhd].
  - eapply linked_snoc; eassumption.
  - rewrite map_app. simpl.
    apply NoDup_app; [exact Hnd | repeat constructor; intros [] |].
    intros n Hn [<- | []].
    apply in_map_iff in Hn as [u [Heq Hu]].
    apply Hvis in Hu. apply py_in_iff in Hu.
    apply py_in_false_iff in Hnot. apply Hnot. rewrite <- Heq. exact Hu.
  - intros u Hu. apply in_app_iff in Hu as [Hu | [<- | []]].
    + apply py_in_app. apply Hvis. exact Hu.
    + apply py_in_self.
Qed.

Lemma route_ok_more (start : Transceiver) (vs ws : list Transceiver) (r : route) :
  route_ok start vs r -> route_ok start (vs ++ ws) r.
Proof.
  intros [Hhd [Hl [Hnd Hvis]]]. repeat split; try assumption.
  intros u Hu. apply py_in_app. apply Hvis. exact Hu.
Qed.

(** Every route of the worklist stays a simple linked route from the start. *)
Lemma for_routes_store_ok (all : registry) (start : Transceiver)
    (fuel i : nat) (st st' : store) (ys : list route) :
  store_ok start st ->
  for_routes all fuel i st = Done (ys, st') ->
  store_ok start st'.
Proof.
  intros Hok Hrun.
  apply (for_routes_rule all (store_ok start)
           (fun st _ st' => incl (routes st) (routes st') /\ store_ok start st'))
    in Hrun; [apply Hrun | | | | | | exact Hok].
  - intros s Hs. split; [apply incl_refl | exact Hs].
  - intros s ys1 s1 zs s2 [Hi1 _] [Hi2 Hs2]. split; [|exact Hs2].
    eapply incl_tran; eassumption.
  - intros s ys1 s1 _ [_ Hs1]. exact Hs1.
  - intros s ys1 s1 [Hi _]. exact Hi.
  - intros s rt last t Hs Hrt Hlast Hnb Hnot. split.
    + cbn [routes]. apply incl_appl, incl_refl.
    + unfold store_ok in *. cbn [routes visited].
      apply Forall_app. split.
      * eapply Forall_impl; [|exact Hs].
        intros r Hr. apply route_ok_more. exact Hr.
      * constructor; [|constructor].
        rewrite Forall_forall in Hs.
        eapply route_ok_snoc; try eassumption. apply Hs. exact Hrt.
Qed.

(** The visited list never holds an object twice, nor an unregistered one. *)
Lemma for_routes_visited_ok (all : registry) (fuel i : nat) (st st' : store)
    (ys : list route) :
  visited_ok all st ->
  for_routes all fuel i st = Done (ys, st') ->
  visited_ok all st'.
Proof.
  intros Hok Hrun.
  apply (for_routes_rule all (visited_ok all)
           (fun st _ st' => incl (routes st) (routes st') /\ visited_ok all st'))
    in Hrun; [apply Hrun | | | | | | exact Hok].
  - intros s Hs. split; [apply incl_refl | exact Hs].
  - intros s ys1 s1 zs s2 [Hi1 _] [Hi2 Hs2]. split; [|exact Hs2].
    eapply incl_tran; eassumption.
  - intros s ys1 s1 _ [_ Hs1]. exact Hs1.
  - intros s ys1 s1 [Hi _]. exact Hi.
  - intros s rt last t [Hnd Hincl] Hrt Hlast Hnb Hnot. split.
    + cbn [routes]. apply incl_appl, incl_refl.
    + unfold visited_ok. cbn [visited]. rewrite map_app. simpl. split.
      * apply NoDup_app; [exact Hnd | repeat constructor; intros [] |].
        intros n Hn [<- | []].
        apply py_in_false_iff in Hnot. apply Hnot. exact Hn.
      * apply incl_app; [exact Hincl|].
        intros n [<- | []]. apply in_map.
        apply neighbours_In in Hnb. apply Hnb.
Qed.

(** The five premises of the traversal rule for [measure_post]. *)
Lemma measure_nil (all : registry) (st : store) :
  routes_nonempty st -> measure_post all st [] st.
Proof.
  intro Hs. split; [apply incl_refl|]. split; [exact Hs|]. lia.
Qed.

Lemma measure_app (all : registry) (st : store) (ys : list route) (st' : store)
    (zs : list route) (st'' : store) :
  measure_post all st ys st' -> measure_post all st' zs st'' ->
  measure_post all st (ys ++ zs) st''.
Proof.
  intros [Hi1 [_ H1]] [Hi2 [Hs2 H2]].
  split; [eapply incl_tran; eassumption|]. split; [exact Hs2|]. lia.
Qed.

Lemma measure_inv (all : registry) (st : store) (ys : list route) (st' : store) :
  routes_nonempty st -> measure_post all st ys st' -> routes_nonempty st'.
Proof. intros _ [_ [Hs _]]. exact Hs. Qed.

Lemma measure_grows (all : registry) (st : store) (ys : list route) (st' : store) :
  measure_post all st ys st' -> incl (routes st) (routes st').
Proof. intros [Hi _]. exact Hi. Qed.

Lemma measure_visit (all : registry) (st : store) (rt : route)
    (last t : Transceiver) :
  routes_nonempty st -> In rt (routes st) -> last_item rt = Some last ->
  In t (neighbours all last) -> py_in t (visited st) = false ->
  measure_post all st [rt ++ [t]]
    (mkStore (routes st ++ [rt ++ [t]]) (visited st ++ [t])).
Proof.
  intros Hs Hrt Hlast Hnb Hnot.
  apply neighbours_In in Hnb as [Hin _].
  assert (Hlt := unvisited_snoc all (visited st) t Hin Hnot).
  unfold measure_post. cbn [routes visited].
  split; [apply incl_appl, incl_refl|]. split.
  - unfold routes_nonempty in *. cbn [routes]. apply Forall_app. split;
      [exact Hs|]. constructor; [|constructor].
    destruct rt; discriminate.
  - rewrite length_app. simpl. lia.
Qed.

Lemma for_routes_measure (all : registry) (fuel i : nat) (st st' : store)
    (ys : list route) :
  routes_nonempty st ->
  for_routes all fuel i st = Done (ys, st') ->
  measure_post all st ys st'.
Proof.
  apply (for_routes_rule all routes_nonempty (measure_post all)).
  - apply measure_nil.
  - apply measure_app.
  - apply measure_inv.
  - apply measure_grows.
  - apply measure_visit.
Qed.

(** ** Termination *)

Lemma for_neighbours_total (all : registry)
    (rec : Transceiver -> store -> outcome (list route * store))
    (rt : route) (last : Transceiver) (T n : nat) :
  (forall t rs r vs v,
      let st1 := mkStore (rs ++ [r]) (vs ++ [v]) in
      routes_nonempty st1 ->
      (length (routes st1) + length (unvisited all (visited st1)) <= T)%nat ->
      (length (unvisited all (visited st1)) < n)%nat ->
      exists ys st', rec t st1 = Done (ys, st')
                     /\ measure_post all st1 ys st') ->
  last_item rt = Some last ->
  forall ts st,
    incl ts (neighbours all last) ->
    routes_nonempty st -> In rt (routes st) ->
    (length (routes st) + length (unvisited all (visited st)) <= T)%nat ->
    (length (unvisited all (visited st)) <= n)%nat ->
    exists ys st', for_neighbours rec rt ts st = Done (ys, st')
                   /\ measure_post all st ys st'.
Proof.
  intros Hrec Hlast. induction ts as [| t ts IH]; intros st Hts Hs Hrt HT Hn.
  - exists [], st. split; [reflexivity | apply measure_nil; exact Hs].
  - assert (Hts' : incl ts (neighbours all last)).
    { intros u Hu. apply Hts. right. exact Hu. }
    simpl. destruct (py_in t (visited st)) eqn:Evis.
    + apply IH; assumption.
    + assert (Hstep := measure_visit all st rt last t Hs Hrt Hlast
                         (Hts t (or_introl eq_refl)) Evis).
      assert (Hin : In t all).
      { apply (neighbours_In all last t). apply Hts. left. reflexivity. }
      assert (Hlt := unvisited_snoc all (visited st) t Hin Evis).
      destruct Hstep as [Hi1 [Hs1 [Hm1 [Hm1' Hm1'']]]].
      cbn [routes visited] in *.
      destruct (Hrec t (routes st) (rt ++ [t]) (visited st) t)
        as [ys1 [st2 [Erec Hm2]]];
        [exact Hs1
        | cbn [routes visited]; eapply Nat.le_trans; [exact Hm1 | exact HT]
        | cbn [visited]; eapply Nat.lt_le_trans; [exact Hlt | exact Hn] |].
      match goal with
      | |- context [rec t ?s] =>
          assert (E' : rec t s = Done (ys1, st2)) by exact Erec; rewrite E'
      end.
      assert (Hm2' := Hm2). destruct Hm2' as [Hi2 [Hs2 [Hm2a [Hm2b Hm2c]]]].
      cbn [routes visited] in *.
      destruct (IH st2) as [zs [st3 [Erest Hm3]]]; try assumption.
      { apply Hi2. apply Hi1. exact Hrt. }
      { unfold route in *. lia. }
      { unfold route in *. lia. }
      rewrite Erest. exists ((rt ++ [t]) :: ys1 ++ zs), st3.
      split; [reflexivity|].
      change ((rt ++ [t]) :: ys1 ++ zs) with ([rt ++ [t]] ++ (ys1 ++ zs)).
      apply measure_app with
        (st' := mkStore (routes st ++ [rt ++ [t]]) (visited st ++ [t])).
      * apply measure_visit with (last := last); try assumption.
        apply Hts. left. reflexivity.
      * apply measure_app with (st' := st2); [exact Hm2 | exact Hm3].
Qed.

Lemma for_routes_total (all : registry) :
  forall fuel T n i st,
    routes_nonempty st ->
    (length (routes st) + length (unvisited all (visited st)) <= T)%nat ->
    (length (unvisited all (visited st)) <= n)%nat ->
    (i <= length (routes st))%nat ->
    ((T + 1 - i) + n * (T + 1) <= fuel)%nat ->
    exists ys st', for_routes all fuel i st = Done (ys, st').
Proof.
  induction fuel as [| fuel IH]; intros T n i st Hs HT Hn Hi Hfuel; [lia|].
  simpl. destruct (nth_error (routes st) i) as [rt|] eqn:Ert.
  - assert (Hrt : In rt (routes st)) by (eapply nth_error_In; exact Ert).
    assert (Hlen : (i < length (routes st))%nat).
    { apply nth_error_Some. congruence. }
    assert (Hne : rt <> []).
    { unfold routes_nonempty in Hs. rewrite Forall_forall in Hs. apply Hs, Hrt. }
    destruct (last_item_nonempty rt Hne) as [last Hlast]. rewrite Hlast.
    match goal with
    | |- context [for_neighbours ?r rt _ st] => set (rec := r)
    end.
    destruct (for_neighbours_total all rec rt last T n) with
      (ts := neighbours all last) (st := st) as [ys1 [st1 [Einner Hm1]]];
      try assumption.
    + intros t rs r vs v st1 Hs1 HT1 Hn1. unfold rec. subst st1.
      cbn [routes visited] in *. rewrite !py_or_snoc.
      destruct n as [| m]; [lia|].
      destruct (IH T m 0%nat (mkStore (rs ++ [r]) (vs ++ [v])))
        as [ys0 [st0 E0]]; try assumption; cbn [routes visited]; try lia.
      exists ys0, st0. split; [exact E0|].
      eapply for_routes_measure; eassumption.
    + apply incl_refl.
    + rewrite Einner. destruct Hm1 as [_ [Hs1 Hm1]].
      destruct (IH T n (S i) st1) as [zs [st2 E2]]; try assumption; try lia.
      rewrite E2. eauto.
  - eauto.
Qed.

Lemma initial_store_nonempty (self : Transceiver) :
  routes_nonempty (initial_store self).
Proof. constructor; [discriminate | constructor]. Qed.

Lemma enough_fuel_bound (all : registry) (k : nat) :
  ((S (length all) + 1 - 0) + length all * (S (length all) + 1)
   <= enough_fuel all + k)%nat.
Proof. unfold enough_fuel. nia. Qed.

(** With [enough_fuel] the generator, called with default arguments, runs
    to the end. *)
Lemma generate_possible_routes_total (all : registry) (self : Transceiver)
    (k : nat) :
  exists ys st',
    generate_possible_routes all (enough_fuel all + k) self None None
    = Done (ys, st').
Proof.
  unfold generate_possible_routes. cbn [py_or_arg].
  apply (for_routes_total all _ (S (length all)) (length all)).
  - apply initial_store_nonempty.
  - cbn [routes visited length]. generalize (unvisited_length all [self]). lia.
  - apply unvisited_length.
  - cbn [routes length]. lia.
  - apply enough_fuel_bound.
Qed.

(** More fuel does not change a finished run. *)
Lemma for_neighbours_mono
    (rec rec' : Transceiver -> store -> outcome (list route * store))
    (rt : route) :
  (forall t st r, rec t st = Done r -> rec' t st = Done r) ->
  forall ts st r,
    for_neighbours rec rt ts st = Done r ->
    for_neighbours rec' rt ts st = Done r.
Proof.
  intros Hrec. induction ts as [| t ts IH]; intros st r Hrun; [exact Hrun|].
  simpl in *. destruct (py_in t (visited st)); [apply IH; exact Hrun|].
  destruct (rec t _) as [[ys1 st2] | |] eqn:E1; try discriminate.
  rewrite (Hrec _ _ _ E1).
  destruct (for_neighbours rec rt ts st2) as [[zs st3] | |] eqn:E2;
    try discriminate.
  rewrite (IH _ _ E2). exact Hrun.
Qed.

Lemma for_routes_mono (all : registry) :
  forall fuel fuel' i st r,
    (fuel <= fuel')%nat ->
    for_routes all fuel i st = Done r ->
    for_routes all fuel' i st = Done r.
Proof.
  induction fuel as [| fuel IH]; intros fuel' i st r Hle Hrun; [discriminate|].
  destruct fuel' as [| fuel']; [lia|].
  simpl in *. destruct (nth_error (routes st) i) as [rt|]; [|exact Hrun].
  destruct (last_item rt) as [last|]; [|discriminate].
  destruct (for_neighbours _ rt (neighbours all last) st)
    as [[ys1 st1] | |] eqn:E1; try discriminate.
  erewrite for_neighbours_mono; [| |exact E1].
  - destruct (for_routes all fuel (S i) st1) as [[zs st2] | |] eqn:E2;
      try discriminate.
    rewrite (IH fuel' (S i) st1 _ ltac:(lia) E2). exact Hrun.
  - intros t s r0 Hr0. cbv beta in *. apply (IH fuel'); [lia | exact Hr0].
Qed.

Lemma for_routes_visited_nodup (all : registry) (fuel i : nat)
    (st st' : store) (ys : list route) :
  NoDup (map nr (visited st)) ->
  for_routes all fuel i st = Done (ys, st') ->
  NoDup (map nr (visited st')).
Proof.
  intros Hok Hrun.
  apply (for_routes_rule all (fun st => NoDup (map nr (visited st)))
           (fun st _ st' =>
              incl (routes st) (routes st') /\ NoDup (map nr (visited st'))))
    in Hrun; [apply Hrun | | | | | | exact Hok].
  - intros s Hs. split; [apply incl_refl | exact Hs].
  - intros s ys1 s1 zs s2 [Hi1 _] [Hi2 Hs2]. split; [|exact Hs2].
    eapply incl_tran; eassumption.
  - intros s ys1 s1 _ [_ Hs1]. exact Hs1.
  - intros s ys1 s1 [Hi _]. exact Hi.
  - intros s rt last t Hnd Hrt Hlast Hnb Hnot. split.
    + cbn [routes]. apply incl_appl, incl_refl.
    + cbn [visited]. rewrite map_app. simpl.
      apply NoDup_app; [exact Hnd | repeat constructor; intros [] |].
      intros n Hn [<- | []].
      apply py_in_false_iff in Hnot. apply Hnot. exact Hn.
Qed.

(** Every route of the worklist ends at a transceiver connected to the
    start. *)
Lemma for_routes_reach (all : registry) (start : Transceiver)
    (fuel i : nat) (st st' : store) (ys : list route) :
  store_reach all start st ->
  for_routes all fuel i st = Done (ys, st') ->
  store_reach all start st'.
Proof.
  intros Hok Hrun.
  apply (for_routes_rule all (store_reach all start)
           (fun st _ st' =>
              incl (routes st) (routes st') /\ store_reach all start st'))
    in Hrun; [apply Hrun | | | | | | exact Hok].
  - intros s Hs. split; [apply incl_refl | exact Hs].
  - intros s ys1 s1 zs s2 [Hi1 _] [Hi2 Hs2]. split; [|exact Hs2].
    eapply incl_tran; eassumption.
  - intros s ys1 s1 _ [_ Hs1]. exact Hs1.
  - intros s ys1 s1 [Hi _]. exact Hi.
  - intros s rt last t Hs Hrt Hlast Hnb Hnot. split.
    + cbn [routes]. apply incl_appl, incl_refl.
    + unfold store_reach in *. cbn [routes].
      apply Forall_app. split; [exact Hs|].
      constructor; [|constructor].
      exists t. split; [apply last_item_snoc|].
      rewrite Forall_forall in Hs. destruct (Hs rt Hrt) as [l [Hl Hc]].
      rewrite Hlast in Hl. injection Hl as <-.
      apply neighbours_In in Hnb as [Hin [Hn Hd]].
      eapply connected_step; eassumption.
Qed.

(** ** Evaluating the example datasets *)

Lemma range_on_axis_sqr (c : R) (n : nat) : range (on_axis c n) ^ 2 = 25 / PI.
Proof.
  rewrite range_sqr; simpl; [|lra].
  generalize PI_RGT_0; intro Hpi. field. lra.
Qed.

Lemma range_on_axis_eq (a b : R) (m n : nat) :
  range (on_axis a m) = range (on_axis b n).
Proof. reflexivity. Qed.

Lemma cov_near (a : R) (m : nat) (c : R) :
  (c - a) * (c - a) <= 6 -> covers_point (on_axis a m) (mkPoint c 0) = true.
Proof.
  intro H. unfold covers_point. apply Rleb_true_iff.
  rewrite range_on_axis_sqr. simpl.
  assert (Hpi := PI_RGT_0). assert (Hpi4 := PI_4).
  apply Rle_trans with 6; [lra|].
  apply Rmult_le_reg_r with PI; [lra|].
  unfold Rdiv. rewrite Rmult_assoc, Rinv_l; lra.
Qed.

Lemma cov_far (a : R) (m : nat) (c : R) :
  9 <= (c - a) * (c - a) -> covers_point (on_axis a m) (mkPoint c 0) = false.
Proof.
  intro H. unfold covers_point. apply Rleb_false_iff.
  rewrite range_on_axis_sqr. simpl.
  assert (Hpi := pi_gt_3).
  apply Rlt_le_trans with 9; [|lra].
  apply Rmult_lt_reg_r with PI; [lra|].
  unfold Rdiv. rewrite Rmult_assoc, Rinv_l; lra.
Qed.

Lemma nb_range_sqr (a b : R) (m n : nat) :
  (range (on_axis a m) + range (on_axis b n)) ^ 2 = 100 / PI.
Proof.
  rewrite (range_on_axis_eq b a n m).
  replace ((range (on_axis a m) + range (on_axis a m)) ^ 2)
    with (4 * range (on_axis a m) ^ 2) by ring.
  rewrite range_on_axis_sqr. assert (Hpi := PI_RGT_0). field. lra.
Qed.

Lemma nb_near (a : R) (m : nat) (b : R) (n : nat) :
  (b - a) * (b - a) <= 25 -> is_neighbour (on_axis a m) (on_axis b n) = true.
Proof.
  intro H. unfold is_neighbour. apply Rleb_true_iff.
  rewrite nb_range_sqr. simpl.
  assert (Hpi := PI_RGT_0). assert (Hpi4 := PI_4).
  apply Rle_trans with 25; [lra|].
  apply Rmult_le_reg_r with PI; [lra|].
  unfold Rdiv. rewrite Rmult_assoc, Rinv_l; lra.
Qed.

Lemma nb_far (a : R) (m : nat) (b : R) (n : nat) :
  34 <= (b - a) * (b - a) -> is_neighbour (on_axis a m) (on_axis b n) = false.
Proof.
  intro H. unfold is_neighbour. apply Rleb_false_iff.
  rewrite nb_range_sqr. simpl.
  assert (Hpi := pi_gt_3).
  apply Rlt_le_trans with 34; [|lra].
  apply Rmult_lt_reg_r with PI; [lra|].
  unfold Rdiv. rewrite Rmult_assoc, Rinv_l; lra.
Qed.

Lemma same_on_axis (a b : R) (m n : nat) :
  same_object (on_axis a m) (on_axis b n) = Nat.eqb m n.
Proof. reflexivity. Qed.

(** One turn of [for route in routes], written out. *)
Lemma for_routes_step (all : registry) (fuel i : nat) (st : store) :
  for_routes all (S fuel) i st
  = match nth_error (routes st) i with
    | None => Done ([], st)
    | Some rt =>
        match last_item rt with
        | None => IndexError
        | Some last =>
            match for_neighbours
                    (fun self st1 =>
                       for_routes all fuel 0
                         (mkStore (py_or (routes st1) [[self]])
                                  (py_or (visited st1) [self])))
                    rt (neighbours all last) st with
            | Done (ys, st') =>
                match for_routes all fuel (S i) st' with
                | Done (zs, st'') => Done (ys ++ zs, st'')
                | IndexError => IndexError
                | OutOfFuel => OutOfFuel
                end
            | IndexError => IndexError
            | OutOfFuel => OutOfFuel
            end
        end
    end.
Proof. reflexivity. Qed.

(** Decide the geometric tests of the goal. *)
Ltac geometry :=
  repeat match goal with
  | |- context [covers_point (on_axis ?a ?m) (mkPoint ?c 0)] =>
      first [ rewrite (cov_near a m c) by lra
            | rewrite (cov_far a m c) by lra ]
  | |- context [is_neighbour (on_axis ?a ?m) (on_axis ?b ?n)] =>
      first [ rewrite (nb_near a m b n) by lra
            | rewrite (nb_far a m b n) by lra ]
  | |- context [same_object (on_axis ?a ?m) (on_axis ?b ?n)] =>
      rewrite (same_on_axis a b m n)
  end.

(** Run the program of the goal: compute, decide the geometric tests met,
    and enter the next turn of the loop over the routes. *)
Ltac run_program :=
  repeat (progress
            (cbn -[for_routes is_neighbour covers_point same_object on_axis IZR];
             geometry;
             unfold generate_possible_routes;
             try rewrite for_routes_step)).

Lemma build_pair :
  build [] (transceivers pair_data)
  = ([on_axis 0 1; on_axis 4 2], [on_axis 0 1; on_axis 4 2]).
Proof. reflexivity. Qed.

Lemma find_route_pair :
  find_route [] 6 pair_data
  = (Done (Some [on_axis 0 1; on_axis 4 2]), [on_axis 0 1; on_axis 4 2]).
Proof.
  unfold find_route. rewrite build_pair.
  run_program.
  reflexivity.
Qed.

(** ** The generator with default arguments *)

Lemma initial_store_ok (self : Transceiver) : store_ok self (initial_store self).
Proof.
  constructor; [|constructor]. split; [reflexivity|]. split; [exact I|]. split.
  - simpl. constructor; [intros [] | constructor].
  - intros t [<- | []]. unfold py_in. simpl. rewrite same_object_refl. reflexivity.
Qed.

Lemma generated_routes_ok (all : registry) (fuel : nat) (self : Transceiver)
    (ys : list route) (st' : store) :
  generate_possible_routes all fuel self None None = Done (ys, st') ->
  forall r, In r ys -> route_ok self (visited st') r.
Proof.
  unfold generate_possible_routes. cbn [py_or_arg]. intros Hrun r Hr.
  assert (Hok := for_routes_store_ok all self fuel 0 _ _ _
                   (initial_store_ok self) Hrun).
  apply for_routes_trace in Hrun as [Hroutes _].
  unfold store_ok in Hok. rewrite Forall_forall in Hok. apply Hok.
  rewrite Hroutes. apply in_or_app. right. exact Hr.
Qed.

Lemma generated_routes_reach (all : registry) (fuel : nat) (self : Transceiver)
    (ys : list route) (st' : store) :
  generate_possible_routes all fuel self None None = Done (ys, st') ->
  forall r, In r ys -> exists l, last_item r = Some l /\ connected all self l.
Proof.
  unfold generate_possible_routes. cbn [py_or_arg]. intros Hrun r Hr.
  assert (Hinit : store_reach all self (mkStore [[self]] [self])).
  { constructor; [|constructor]. exists self. split; [reflexivity|].
    apply connected_refl. }
  assert (Hok := for_routes_reach all self fuel 0 _ _ _ Hinit Hrun).
  apply for_routes_trace in Hrun as [Hroutes _].
  unfold store_reach in Hok. rewrite Forall_forall in Hok. apply Hok.
  rewrite Hroutes. apply in_or_app. right. exact Hr.
Qed.

Lemma generated_routes_nonempty (all : registry) (fuel : nat)
    (self : Transceiver) (ys : list route) (st' : store) :
  generate_possible_routes all fuel self None None = Done (ys, st') ->
  Forall (fun r : route => r <> []) ys.
Proof.
  unfold generate_possible_routes. cbn [py_or_arg]. intros Hrun.
  assert (Hm := for_routes_measure all fuel 0 _ _ _
                  (initial_store_nonempty self) Hrun).
  destruct Hm as [_ [Hne _]].
  apply for_routes_trace in Hrun as [Hroutes _].
  unfold routes_nonempty in Hne. rewrite Hroutes in Hne.
  apply Forall_app in Hne. apply Hne.
Qed.

Lemma generated_routes_length (all : registry) (fuel : nat)
    (self : Transceiver) (ys : list route) (st' : store) :
  generate_possible_routes all fuel self None None = Done (ys, st') ->
  Forall (fun r : route => (2 <= length r)%nat) ys.
Proof.
  unfold generate_possible_routes. cbn [py_or_arg]. intro Hrun.
  apply (for_routes_rule all (fun _ => True)
           (fun st ys st' =>
              routes st' = routes st ++ ys
              /\ Forall (fun r : route => (2 <= length r)%nat) ys))
    in Hrun; [apply Hrun | | | | | | exact I].
  - intros s _. split; [symmetry; apply app_nil_r | constructor].
  - intros s ys1 s1 zs s2 [Hr1 Hf1] [Hr2 Hf2]. split.
    + rewrite Hr2, Hr1. symmetry. apply app_assoc.
    + apply Forall_app. split; assumption.
  - trivial.
  - intros s ys1 s1 [Hr _]. rewrite Hr. apply incl_appl, incl_refl.
  - intros s rt last t _ _ Hlast _ _. split; [reflexivity|].
    constructor; [|constructor]. rewrite length_app. simpl.
    destruct rt; [discriminate | simpl; lia].
Qed.

(** ** The loops of [find_route] *)

Lemma first_covering_sound (ys : list route) (b : Point) (r : route) :
  first_covering ys b = Done (Some r) ->
  In r ys /\ exists last, last_item r = Some last /\ covers_point last b = true.
Proof.
  induction ys as [| rt ys IH]; [discriminate|]. simpl.
  destruct (last_item rt) as [last|] eqn:El; [|discriminate].
  destruct (covers_point last b) eqn:Ec.
  - intro H. injection H as <-. split; [left; reflexivity|]. eauto.
  - intro H. destruct (IH H) as [Hin Hl]. split; [right; exact Hin | exact Hl].
Qed.

Lemma first_covering_total (ys : list route) (b : Point) :
  Forall (fun r : route => r <> []) ys ->
  exists res, first_covering ys b = Done res.
Proof.
  induction 1 as [| rt ys Hne _ IH]; [eexists; reflexivity|]. simpl.
  destruct (last_item_nonempty rt Hne) as [last ->].
  destruct (covers_point last b); [eexists; reflexivity | exact IH].
Qed.

Lemma search_sound (all : registry) (fuel : nat) (b : Point) (r : route) :
  forall starts,
    search all fuel starts b = Done (Some r) ->
    exists s ys st',
      In s starts
      /\ generate_possible_routes all fuel s None None = Done (ys, st')
      /\ In r ys
      /\ exists last, last_item r = Some last /\ covers_point last b = true.
Proof.
  induction starts as [| s starts IH]; [discriminate|]. simpl.
  destruct (generate_possible_routes all fuel s None None)
    as [[ys st'] | |] eqn:Egen; try discriminate.
  destruct (first_covering ys b) as [[r'|] | |] eqn:Efirst; try discriminate.
  - intro H. injection H as ->.
    apply first_covering_sound in Efirst as [Hin Hl].
    exists s, ys, st'. split; [left; reflexivity|]. auto.
  - intro H. destruct (IH H) as [s' [ys' [st0 [Hin Hrest]]]].
    exists s', ys', st0. split; [right; exact Hin | exact Hrest].
Qed.

Lemma search_total (all : registry) (b : Point) (k : nat) :
  forall starts, exists res, search all (enough_fuel all + k) starts b = Done res.
Proof.
  induction starts as [| s starts IH]; [eexists; reflexivity|]. simpl.
  destruct (generate_possible_routes_total all s k) as [ys [st' Egen]].
  rewrite Egen.
  destruct (first_covering_total ys b) as [[r|] ->].
  - eapply generated_routes_nonempty. exact Egen.
  - eexists; reflexivity.
  - exact IH.
Qed.

Lemma search_mono (all : registry) (b : Point) (fuel fuel' : nat) :
  (fuel <= fuel')%nat ->
  forall starts res,
    search all fuel starts b = Done res ->
    search all fuel' starts b = Done res.
Proof.
  intros Hle. induction starts as [| s starts IH]; intros res; [trivial|].
  simpl. unfold generate_possible_routes.
  destruct (for_routes all fuel 0 _) as [[ys st'] | |] eqn:Egen; try discriminate.
  rewrite (for_routes_mono all fuel fuel' _ _ _ Hle Egen).
  destruct (first_covering ys b) as [[r|] | |]; try discriminate.
  - trivial.
  - apply IH.
Qed.

Lemma build_spec (ds : list TransceiverData) :
  forall all, exists ts,
    build all ds = (ts, all ++ ts)
    /\ map location ts = map d_location ds
    /\ map power ts = map d_power ds
    /\ map nr ts = seq (S (length all)) (length ds).
Proof.
  induction ds as [| d ds IH]; intro all.
  - exists []. rewrite app_nil_r. repeat split.
  - simpl.
    destruct (IH (all ++ [mkTransceiver (d_location d) (d_power d) (S (length all))]))
      as [ts [Hb [Hl [Hp Hn]]]].
    rewrite Hb. eexists. split; [rewrite <- app_assoc; reflexivity|].
    simpl. rewrite Hl, Hp, Hn. rewrite length_app. simpl.
    rewrite Nat.add_1_r. repeat split.
Qed.

Lemma build_single (all : registry) :
  build all (transceivers single_data)
  = ([on_axis 0 (S (length all))], all ++ [on_axis 0 (S (length all))]).
Proof. reflexivity. Qed.

Lemma build_bridge :
  build [] (transceivers bridge_data) = ([on_axis 4 1], [on_axis 4 1]).
Proof. reflexivity. Qed.

Lemma build_apart (all : registry) :
  build all (transceivers apart_data)
  = ([on_axis 0 (S (length all)); on_axis 8 (S (length (all ++ [on_axis 0 (S (length all))])))],
     (all ++ [on_axis 0 (S (length all))])
       ++ [on_axis 8 (S (length (all ++ [on_axis 0 (S (length all))])))]).
Proof. reflexivity. Qed.

Lemma generate_pair :
  generate_possible_routes [on_axis 0 1; on_axis 4 2] 6 (on_axis 0 1) None None
  = Done ([[on_axis 0 1; on_axis 4 2]],
          mkStore [[on_axis 0 1]; [on_axis 0 1; on_axis 4 2]]
                  [on_axis 0 1; on_axis 4 2]).
Proof. unfold generate_possible_routes. run_program. reflexivity. Qed.

Lemma find_route_single_fresh (k : nat) :
  find_route [] (2 + k) single_data = (Done None, [on_axis 0 1]).
Proof.
  unfold find_route. rewrite build_single.
  run_program. reflexivity.
Qed.

Lemma find_route_single_again :
  find_route [on_axis 0 1] 6 single_data
  = (Done (Some [on_axis 0 2; on_axis 0 1]), [on_axis 0 1; on_axis 0 2]).
Proof.
  unfold find_route. rewrite build_single.
  run_program. reflexivity.
Qed.

Lemma find_route_bridge :
  find_route [] 6 bridge_data = (Done None, [on_axis 4 1]).
Proof.
  unfold find_route. rewrite build_bridge.
  run_program. reflexivity.
Qed.

Lemma find_route_apart_stale :
  find_route [on_axis 4 1] 20 apart_data
  = (Done (Some [on_axis 0 2; on_axis 4 1; on_axis 8 3]),
     [on_axis 4 1; on_axis 0 2; on_axis 8 3]).
Proof.
  unfold find_route. rewrite build_apart.
  run_program. reflexivity.
Qed.

(** In the registry that holds only the two transceivers of [apart_data],
    nothing but the first is connected to the first. *)
Lemma apart_component (m n : nat) (s c : Transceiver) :
  connected [on_axis 0 m; on_axis 8 n] s c ->
  s = on_axis 0 m -> c = on_axis 0 m.
Proof.
  intro Hc. induction Hc as [a | a b c Hab IH Hin Hnb Hdiff]; intro Es.
  - exact Es.
  - specialize (IH Es). subst b.
    destruct Hin as [<- | [<- | []]]; [reflexivity|].
    rewrite nb_far in Hnb by lra. discriminate.
Qed.

Lemma apart_separated :
  separated [on_axis 0 1; on_axis 8 2]
    (filter (fun t => covers_point t (A apart_data)) [on_axis 0 1; on_axis 8 2])
    (B apart_data).
Proof.
  intros s t Hs Ht Hcov Hconn.
  cbn -[covers_point on_axis IZR] in Hs.
  rewrite (cov_near 0 1 0) in Hs by lra.
  rewrite (cov_far 8 2 0) in Hs by lra.
  destruct Hs as [<- | []].
  apply apart_component in Hconn; [|reflexivity]. subst t.
  cbn -[covers_point on_axis IZR] in Hcov.
  rewrite (cov_far 0 1 8) in Hcov by lra. discriminate.
Qed.

Lemma apart_separated_dataset :
  separated [on_axis 0 2; on_axis 8 3]
    (filter (fun t => covers_point t (A apart_data)) [on_axis 0 2; on_axis 8 3])
    (B apart_data).
Proof.
  intros s t Hs Ht Hcov Hconn.
  cbn -[covers_point on_axis IZR] in Hs.
  rewrite (cov_near 0 2 0) in Hs by lra.
  rewrite (cov_far 8 3 0) in Hs by lra.
  destruct Hs as [<- | []].
  apply apart_component in Hconn; [|reflexivity]. subst t.
  cbn -[covers_point on_axis IZR] in Hcov.
  rewrite (cov_far 0 2 8) in Hcov by lra. discriminate.
Qed.

(** ** The claims *)

(** C1. A route returned by [find_route] is linked (every consecutive pair
    is a neighbour pair), starts at a transceiver that covers A, ends at one
    that covers B, and holds no transceiver twice. *)
Theorem find_route_returns_valid_route (all : registry) (fuel : nat)
    (data : Data) (r : route) (all' : registry) :
  find_route all fuel data = (Done (Some r), all') ->
  linked r
  /\ (exists first, hd_error r = Some first
                    /\ covers_point first (A data) = true)
  /\ (exists last, last_item r = Some last
                   /\ covers_point last (B data) = true)
  /\ NoDup (map nr r)
  /\ NoDup r.
Proof.
  unfold find_route. destruct (build all (transceivers data)) as [ts reg].
  intro H. injection H as Hsearch _.
  apply search_sound in Hsearch as [s [ys [st' [Hs [Hgen [Hr Hlast]]]]]].
  apply filter_In in Hs as [_ Hcov].
  destruct (generated_routes_ok _ _ _ _ _ Hgen r Hr) as [Hhd [Hl [Hnd _]]].
  split; [exact Hl|]. split; [exists s; auto|]. split; [exact Hlast|].
  split; [exact Hnd|]. eapply NoDup_map_inv. exact Hnd.
Qed.

Lemma find_route_returns_valid_route_witness :
  find_route [] 6 pair_data
  = (Done (Some [on_axis 0 1; on_axis 4 2]), [on_axis 0 1; on_axis 4 2])
  /\ linked [on_axis 0 1; on_axis 4 2]
  /\ NoDup (map nr [on_axis 0 1; on_axis 4 2]).
Proof.
  split; [exact find_route_pair|].
  destruct (find_route_returns_valid_route [] 6 pair_data
              [on_axis 0 1; on_axis 4 2] [on_axis 0 1; on_axis 4 2]
              find_route_pair) as [Hl [_ [_ [Hnd _]]]].
  split; [exact Hl | exact Hnd].
Defined.

(** C3. Over any registry and from any start transceiver the traversal
    with default arguments finishes: with [enough_fuel] or more it returns
    one and the same finite list of routes, raises nothing, and its visited
    list holds no transceiver twice. *)
Theorem traversal_terminates (all : registry) (self : Transceiver) :
  exists ys st',
    NoDup (map nr (visited st'))
    /\ forall k,
        generate_possible_routes all (enough_fuel all + k) self None None
        = Done (ys, st').
Proof.
  destruct (generate_possible_routes_total all self 0) as [ys [st' Hrun]].
  exists ys, st'. split.
  - unfold generate_possible_routes in Hrun. cbn [py_or_arg] in Hrun.
    eapply for_routes_visited_nodup; [|exact Hrun].
    simpl. constructor; [intros [] | constructor].
  - intro k. unfold generate_possible_routes in *.
    eapply for_routes_mono; [|exact Hrun]. lia.
Qed.

(** C9. Every route the generator yields has at least two transceivers;
    the one-element route of the start is in the worklist and is not among
    the routes yielded. *)
Theorem yielded_routes_have_two (all : registry) (fuel : nat)
    (self : Transceiver) (ys : list route) (st' : store) :
  generate_possible_routes all fuel self None None = Done (ys, st') ->
  (forall r, In r ys -> (2 <= length r)%nat)
  /\ hd_error (routes st') = Some [self]
  /\ ~ In [self] ys.
Proof.
  intro Hrun.
  assert (Hlen := generated_routes_length _ _ _ _ _ Hrun).
  unfold generate_possible_routes in Hrun. cbn [py_or_arg] in Hrun.
  rewrite Forall_forall in Hlen.
  apply for_routes_trace in Hrun as [Hroutes _].
  split; [exact Hlen|]. split.
  - rewrite Hroutes. reflexivity.
  - intro Hin. apply Hlen in Hin. simpl in Hin. lia.
Qed.

Lemma yielded_routes_have_two_witness :
  generate_possible_routes [on_axis 0 1; on_axis 4 2] 6 (on_axis 0 1) None None
  = Done ([[on_axis 0 1; on_axis 4 2]],
          mkStore [[on_axis 0 1]; [on_axis 0 1; on_axis 4 2]]
                  [on_axis 0 1; on_axis 4 2])
  /\ ~ In [on_axis 0 1] [[on_axis 0 1; on_axis 4 2]].
Proof.
  split; [exact generate_pair|].
  apply (yielded_routes_have_two _ _ _ _ _ generate_pair).
Defined.

(** C10. In a traversal with default arguments from a registered
    transceiver there is one visited list: it is the start followed by the
    last elements of the yielded routes, in order, and holds no transceiver
    twice.  So no two yielded routes end at the same transceiver, none ends
    at the start, and the routes yielded number at most the registered
    transceivers minus one. *)
Theorem shared_visited_bounds_yields (all : registry) (fuel : nat)
    (self : Transceiver) (ys : list route) (st' : store) :
  In self all ->
  generate_possible_routes all fuel self None None = Done (ys, st') ->
  exists vs,
    visited st' = self :: vs
    /\ map last_item ys = map Some vs
    /\ NoDup (map nr (self :: vs))
    /\ (length ys + 1 <= length all)%nat.
Proof.
  unfold generate_possible_routes. cbn [py_or_arg]. intros Hself Hrun.
  assert (Hinit : visited_ok all (mkStore [[self]] [self])).
  { split; simpl.
    - constructor; [intros [] | constructor].
    - intros n [<- | []]. apply in_map. exact Hself. }
  destruct (for_routes_visited_ok all fuel 0 _ _ _ Hinit Hrun) as [Hnd Hincl].
  apply for_routes_trace in Hrun as [_ [vs [Hvis Hlast]]].
  cbn [visited] in Hvis. exists vs. rewrite Hvis in Hnd, Hincl.
  split; [exact Hvis|]. split; [exact Hlast|]. split; [exact Hnd|].
  assert (Hlen := NoDup_incl_length Hnd Hincl).
  apply (f_equal (@length _)) in Hlast. rewrite !length_map in Hlast.
  rewrite !length_map in Hlen. simpl in Hlen. lia.
Qed.

Lemma shared_visited_bounds_yields_witness :
  In (on_axis 0 1) [on_axis 0 1; on_axis 4 2]
  /\ exists vs,
      visited (mkStore [[on_axis 0 1]; [on_axis 0 1; on_axis 4 2]]
                       [on_axis 0 1; on_axis 4 2])
      = on_axis 0 1 :: vs
      /\ (length [[on_axis 0 1; on_axis 4 2]] + 1
          <= length [on_axis 0 1; on_axis 4 2])%nat.
Proof.
  assert (Hin : In (on_axis 0 1) [on_axis 0 1; on_axis 4 2])
    by (left; reflexivity).
  split; [exact Hin|].
  destruct (shared_visited_bounds_yields _ _ _ _ _ Hin generate_pair)
    as [vs [Hvis [_ [_ Hlen]]]].
  exists vs. split; [exact Hvis | exact Hlen].
Defined.

(** [find_route] always returns: with [enough_fuel] or more for the
    registry it searches, the answer is one and the same. *)
Lemma find_route_total (all : registry) (data : Data) :
  exists ts res,
    build all (transceivers data) = (ts, all ++ ts)
    /\ forall k,
        find_route all (enough_fuel (all ++ ts) + k) data
        = (Done res, all ++ ts).
Proof.
  destruct (build_spec (transceivers data) all) as [ts [Hb _]].
  destruct (search_total (all ++ ts) (B data) 0
              (filter (fun t => covers_point t (A data)) ts)) as [res Hres].
  exists ts, res. split; [exact Hb|]. intro k.
  unfold find_route. rewrite Hb. f_equal.
  eapply search_mono; [|exact Hres]. lia.
Qed.

(** No route returned by [find_route] has length one. *)
Lemma find_route_never_single (all : registry) (fuel : nat) (data : Data)
    (r : route) (all' : registry) :
  find_route all fuel data = (Done (Some r), all') -> (2 <= length r)%nat.
Proof.
  unfold find_route. destruct (build all (transceivers data)) as [ts reg].
  intro H. injection H as Hsearch _.
  apply search_sound in Hsearch as [s [ys [st' [_ [Hgen [Hr _]]]]]].
  apply generated_routes_length in Hgen.
  rewrite Forall_forall in Hgen. apply Hgen. exact Hr.
Qed.

(** C2, on the code: for a dataset whose only transceiver covers both A
    and B, the first call of [find_route] in a process returns [None]. *)
Theorem single_cover_returns_none (k : nat) :
  covers_point (on_axis 0 1) (A single_data) = true
  /\ covers_point (on_axis 0 1) (B single_data) = true
  /\ find_route [] (2 + k) single_data = (Done None, [on_axis 0 1]).
Proof.
  split; [apply cov_near; lra|]. split; [apply cov_near; lra|].
  apply find_route_single_fresh.
Qed.

(** C4, amended.  If, in the overlap graph on all registered transceivers
    (those of the dataset and those left in the registry by earlier
    constructions), no transceiver of the dataset that covers A is connected
    to a transceiver that covers B, then [find_route] returns [None].  When
    the registry is empty at the call, the registered transceivers are
    those of the dataset. *)
Theorem find_route_none_when_separated (all : registry) (data : Data)
    (ts : list Transceiver) (all' : registry) (k : nat) :
  build all (transceivers data) = (ts, all') ->
  separated all' (filter (fun t => covers_point t (A data)) ts) (B data) ->
  find_route all (enough_fuel all' + k) data = (Done None, all')
  /\ (all = [] -> all' = ts).
Proof.
  intros Hb Hsep.
  destruct (find_route_total all data) as [ts' [res [Hb' Hres]]].
  rewrite Hb in Hb'. injection Hb' as <- ->.
  split; [|intros ->; reflexivity].
  rewrite (Hres k). destruct res as [r|]; [exfalso | reflexivity].
  specialize (Hres k). unfold find_route in Hres. rewrite Hb in Hres.
  injection Hres as Hsearch.
  apply search_sound in Hsearch as [s [ys [st' [Hs [Hgen [Hr Hlast]]]]]].
  destruct Hlast as [last [Hlast Hcov]].
  destruct (generated_routes_reach _ _ _ _ _ Hgen r Hr) as [l [Hl Hconn]].
  rewrite Hlast in Hl. injection Hl as <-.
  apply (Hsep s last Hs); [|exact Hcov | exact Hconn].
  inversion Hconn as [a Ha | a b c Hab Hin Hnb Hd]; subst.
  - apply in_or_app. right. apply filter_In in Hs. apply Hs.
  - exact Hin.
Qed.

Lemma find_route_none_when_separated_witness :
  build [] (transceivers apart_data)
  = ([on_axis 0 1; on_axis 8 2], [on_axis 0 1; on_axis 8 2])
  /\ find_route [] (enough_fuel [on_axis 0 1; on_axis 8 2] + 0) apart_data
     = (Done None, [on_axis 0 1; on_axis 8 2]).
Proof.
  split; [reflexivity|].
  apply (find_route_none_when_separated [] apart_data
           [on_axis 0 1; on_axis 8 2] [on_axis 0 1; on_axis 8 2] 0).
  - reflexivity.
  - exact apart_separated.
Defined.

(** C4 as stated fails.  After a call on [bridge_data] has left its
    transceiver in the registry, a call on [apart_data], whose own two
    circles do not overlap, returns a route through the stale transceiver. *)
Lemma stale_registry_joins_components :
  let reg := snd (find_route [] 6 bridge_data) in
  let ts := fst (build reg (transceivers apart_data)) in
  ~ (separated ts (filter (fun t => covers_point t (A apart_data)) ts)
               (B apart_data) ->
     fst (find_route reg 20 apart_data) = Done None).
Proof.
  rewrite find_route_bridge. cbn [snd]. rewrite build_apart. cbn [fst].
  rewrite find_route_apart_stale. cbn [fst length app].
  intro H. specialize (H apart_separated_dataset). discriminate.
Qed.

(** C5, amended.  A call of [find_route] always returns; the one change it
    makes to the state is to append the transceivers it builds from the
    dataset, numbered on from the registry's length, to the registry, whose
    earlier entries stay as they were; the result is determined by the
    dataset and the registry at the call. *)
Theorem find_route_effect (all : registry) (data : Data) :
  exists ts res,
    (forall k,
        find_route all (enough_fuel (all ++ ts) + k) data
        = (Done res, all ++ ts))
    /\ map location ts = map d_location (transceivers data)
    /\ map power ts = map d_power (transceivers data)
    /\ map nr ts = seq (S (length all)) (length (transceivers data)).
Proof.
  destruct (find_route_total all data) as [ts [res [Hb Hres]]].
  destruct (build_spec (transceivers data) all) as [ts' [Hb' Hrest]].
  rewrite Hb in Hb'. injection Hb' as Hts _. subst ts'.
  exists ts, res. split; [exact Hres | exact Hrest].
Qed.

(** C5 as stated fails: the first call on [single_data] changes the
    registry, and a second call on the same data returns another result. *)
Lemma second_call_differs :
  snd (find_route [] 6 single_data) <> []
  /\ fst (find_route (snd (find_route [] 6 single_data)) 6 single_data)
     <> fst (find_route [] 6 single_data).
Proof.
  pose proof (find_route_single_fresh 4) as Hfirst.
  change (2 + 4)%nat with 6%nat in Hfirst.
  rewrite Hfirst. cbn [fst snd].
  rewrite find_route_single_again. cbn [fst].
  split; discriminate.
Qed.

(** ** Further properties: geometry *)

Lemma is_neighbour_comm (a b : Transceiver) : is_neighbour a b = is_neighbour b a.
Proof. unfold is_neighbour. f_equal; ring. Qed.

Lemma same_object_comm (a b : Transceiver) : same_object a b = same_object b a.
Proof. apply Nat.eqb_sym. Qed.

(** X1. A transceiver passes [is_neighbour] against itself, and yet the
    [neighbours] of a transceiver never hold the transceiver itself, nor
    anything that is not registered. *)
Theorem neighbours_exclude_self (all : registry) (self : Transceiver) :
  0 <= power self ->
  is_neighbour self self = true
  /\ py_in self (neighbours all self) = false
  /\ incl (neighbours all self) all.
Proof.
  intros _. split; [|split].
  - unfold is_neighbour. apply Rleb_true_iff.
    replace ((x (location self) - x (location self)) ^ 2
             + (y (location self) - y (location self)) ^ 2) with 0 by ring.
    apply pow2_ge_0.
  - apply py_in_false_iff. intro Hin.
    apply in_map_iff in Hin as [t [Hnr Ht]].
    apply neighbours_In in Ht as [_ [_ Hdiff]].
    unfold same_object in Hdiff. rewrite Hnr, Nat.eqb_refl in Hdiff.
    discriminate.
  - intros t Ht. apply neighbours_In in Ht. apply Ht.
Qed.

Lemma neighbours_exclude_self_witness :
  0 <= power (on_axis 0 1)
  /\ py_in (on_axis 0 1) (neighbours [on_axis 0 1; on_axis 4 2] (on_axis 0 1))
     = false.
Proof.
  assert (Hp : 0 <= power (on_axis 0 1)) by (simpl; lra).
  split; [exact Hp|].
  apply (neighbours_exclude_self [on_axis 0 1; on_axis 4 2] (on_axis 0 1) Hp).
Defined.

(** X2. The neighbour lists are symmetric: a registered transceiver is
    among the neighbours of each of its own neighbours. *)
Theorem neighbours_symmetric (all : registry) (s t : Transceiver) :
  In s all -> In t (neighbours all s) -> In s (neighbours all t).
Proof.
  intros Hs Ht. apply neighbours_In in Ht as [_ [Hn Hd]].
  unfold neighbours. apply filter_In. split; [exact Hs|].
  rewrite is_neighbour_comm, Hn, same_object_comm, Hd. reflexivity.
Qed.

Lemma neighbours_symmetric_witness :
  In (on_axis 0 1) [on_axis 0 1; on_axis 4 2]
  /\ In (on_axis 0 1) (neighbours [on_axis 0 1; on_axis 4 2] (on_axis 4 2)).
Proof.
  assert (Hs : In (on_axis 0 1) [on_axis 0 1; on_axis 4 2])
    by (left; reflexivity).
  split; [exact Hs|].
  apply (neighbours_symmetric [on_axis 0 1; on_axis 4 2]
           (on_axis 0 1) (on_axis 4 2) Hs).
  unfold neighbours. run_program. left. reflexivity.
Defined.

Lemma dot_le_product (ux uy vx vy ra rb : R) :
  0 <= ra -> 0 <= rb ->
  ux * ux + uy * uy <= ra * ra -> vx * vx + vy * vy <= rb * rb ->
  ux * vx + uy * vy <= ra * rb.
Proof.
  intros Hra Hrb Hu Hv.
  assert (Hcs : (ux * vx + uy * vy) * (ux * vx + uy * vy)
                <= (ux * ux + uy * uy) * (vx * vx + vy * vy)).
  { assert (H := Rle_0_sqr (ux * vy - uy * vx)). unfold Rsqr in H. lra. }
  assert (Hb : (ux * ux + uy * uy) * (vx * vx + vy * vy)
               <= (ra * ra) * (rb * rb)).
  { apply Rmult_le_compat; try assumption.
    - generalize (Rle_0_sqr ux) (Rle_0_sqr uy). unfold Rsqr. lra.
    - generalize (Rle_0_sqr vx) (Rle_0_sqr vy). unfold Rsqr. lra. }
  assert (Hp : 0 <= ra * rb) by (apply Rmult_le_pos; assumption).
  apply Rnot_lt_le. intro Hlt.
  assert (Hsq : (ra * rb) * (ra * rb)
                < (ux * vx + uy * vy) * (ux * vx + uy * vy)).
  { apply Rmult_le_0_lt_compat; assumption. }
  replace ((ra * ra) * (rb * rb)) with ((ra * rb) * (ra * rb)) in Hb by ring.
  lra.
Qed.

(** X3. Two transceivers that cover one and the same point are
    neighbours. *)
Theorem common_point_makes_neighbours (a b : Transceiver) (p : Point) :
  0 <= power a -> 0 <= power b ->
  covers_point a p = true -> covers_point b p = true ->
  is_neighbour a b = true.
Proof.
  intros _ _ Ha Hb. unfold covers_point in Ha, Hb. unfold is_neighbour.
  apply Rleb_true_iff in Ha. apply Rleb_true_iff in Hb. apply Rleb_true_iff.
  assert (Hra := range_nonneg a). assert (Hrb := range_nonneg b).
  set (ra := range a) in *. set (rb := range b) in *.
  set (ux := x p - x (location a)) in *. set (uy := y p - y (location a)) in *.
  set (wx := x p - x (location b)) in *. set (wy := y p - y (location b)) in *.
  replace (x (location b) - x (location a)) with (ux + - wx)
    by (unfold ux, wx; ring).
  replace (y (location b) - y (location a)) with (uy + - wy)
    by (unfold uy, wy; ring).
  assert (Hdot : ux * (- wx) + uy * (- wy) <= ra * rb).
  { apply dot_le_product; try assumption; lra. }
  lra.
Qed.

Lemma common_point_makes_neighbours_witness :
  covers_point (on_axis 0 1) (mkPoint 2 0) = true
  /\ covers_point (on_axis 4 2) (mkPoint 2 0) = true
  /\ is_neighbour (on_axis 0 1) (on_axis 4 2) = true.
Proof.
  assert (Ha : covers_point (on_axis 0 1) (mkPoint 2 0) = true)
    by (apply cov_near; lra).
  assert (Hb : covers_point (on_axis 4 2) (mkPoint 2 0) = true)
    by (apply cov_near; lra).
  split; [exact Ha|]. split; [exact Hb|].
  apply (common_point_makes_neighbours (on_axis 0 1) (on_axis 4 2)
           (mkPoint 2 0)); [simpl; lra | simpl; lra | exact Ha | exact Hb].
Defined.

Lemma range_monotone (t u : Transceiver) :
  0 <= power t -> power t <= power u -> range t <= range u.
Proof.
  intros Ht Htu. unfold range, REC_MIN_DENSITY. apply sqrt_le_1_alt.
  assert (H4 := four_pi_pos).
  apply Rmult_le_compat_r; [left; apply Rinv_0_lt_compat; exact H4 | lra].
Qed.

(** X4. More power never covers less: what a transceiver covers, and whom
    it has for a neighbour, it keeps when its power is raised. *)
Theorem more_power_covers_more (t u other : Transceiver) (p : Point) :
  0 <= power t -> power t <= power u -> location u = location t ->
  (covers_point t p = true -> covers_point u p = true)
  /\ (is_neighbour t other = true -> is_neighbour u other = true).
Proof.
  intros Ht Htu Hloc.
  assert (Hr := range_monotone t u Ht Htu).
  assert (Hrt := range_nonneg t). assert (Hro := range_nonneg other).
  split; intro H.
  - unfold covers_point in *. apply Rleb_true_iff in H. apply Rleb_true_iff.
    rewrite Hloc. eapply Rle_trans; [exact H|].
    apply pow_incr. split; assumption.
  - unfold is_neighbour in *. apply Rleb_true_iff in H. apply Rleb_true_iff.
    rewrite Hloc. eapply Rle_trans; [exact H|].
    apply pow_incr. split; lra.
Qed.

Lemma more_power_covers_more_witness :
  0 <= power (on_axis 0 1)
  /\ (covers_point (on_axis 0 1) (mkPoint 1 0) = true ->
      covers_point (mkTransceiver (mkPoint 0 0) 200 2) (mkPoint 1 0) = true).
Proof.
  assert (Hp : 0 <= power (on_axis 0 1)) by (simpl; lra).
  split; [exact Hp|].
  apply (more_power_covers_more (on_axis 0 1)
           (mkTransceiver (mkPoint 0 0) 200 2) (on_axis 0 1) (mkPoint 1 0) Hp).
  - simpl. lra.
  - reflexivity.
Defined.

(** X5. A transceiver of power 0 has range 0 and covers its own location
    and no other point. *)
Theorem zero_power_covers_own_location (t : Transceiver) (p : Point) :
  power t = 0 ->
  range t = 0 /\ (covers_point t p = true <-> p = location t).
Proof.
  intro Hp.
  assert (Hr : range t = 0).
  { unfold range, REC_MIN_DENSITY. rewrite Hp.
    replace (0 / 1 / (4 * PI)) with 0; [apply sqrt_0|].
    unfold Rdiv. ring. }
  split; [exact Hr|].
  unfold covers_point. rewrite Rleb_true_iff, Hr.
  replace (0 ^ 2) with 0 by ring.
  assert (Hx := pow2_ge_0 (x p - x (location t))).
  assert (Hy := pow2_ge_0 (y p - y (location t))).
  split.
  - intro H.
    assert (Hx0 : (x p - x (location t)) ^ 2 = 0) by lra.
    assert (Hy0 : (y p - y (location t)) ^ 2 = 0) by lra.
    assert (Hx1 : x p - x (location t) = 0)
      by (apply Rsqr_0_uniq; unfold Rsqr; simpl in Hx0; lra).
    assert (Hy1 : y p - y (location t) = 0)
      by (apply Rsqr_0_uniq; unfold Rsqr; simpl in Hy0; lra).
    destruct p as [px py], (location t) as [lx ly]. simpl in *.
    f_equal; lra.
  - intros ->. right. ring.
Qed.

Lemma zero_power_covers_own_location_witness :
  power (mkTransceiver (mkPoint 3 4) 0 1) = 0
  /\ range (mkTransceiver (mkPoint 3 4) 0 1) = 0.
Proof.
  split; [reflexivity|].
  apply (zero_power_covers_own_location (mkTransceiver (mkPoint 3 4) 0 1)
           (mkPoint 3 4)). reflexivity.
Defined.

(** ** Further properties: the traversal reaches the whole component *)

Lemma trace_nil (st : store) : trace_post st [] st.
Proof.
  split; [symmetry; apply app_nil_r|].
  exists []. split; [symmetry; apply app_nil_r | reflexivity].
Qed.

Lemma trace_app (st : store) (ys : list route) (st' : store)
    (zs : list route) (st'' : store) :
  trace_post st ys st' -> trace_post st' zs st'' ->
  trace_post st (ys ++ zs) st''.
Proof.
  intros [Hr1 [vs1 [Hv1 Hl1]]] [Hr2 [vs2 [Hv2 Hl2]]]. split.
  - rewrite Hr2, Hr1. symmetry. apply app_assoc.
  - exists (vs1 ++ vs2). split.
    + rewrite Hv2, Hv1. symmetry. apply app_assoc.
    + rewrite !map_app, Hl1, Hl2. reflexivity.
Qed.

Lemma trace_grows (st : store) (ys : list route) (st' : store) :
  trace_post st ys st' -> incl (routes st) (routes st').
Proof. intros [Hr _]. rewrite Hr. apply incl_appl, incl_refl. Qed.

Lemma trace_visit (st : store) (rt : route) (t : Transceiver) :
  trace_post st [rt ++ [t]]
    (mkStore (routes st ++ [rt ++ [t]]) (visited st ++ [t])).
Proof.
  split; [reflexivity|].
  exists [t]. split; [reflexivity|]. simpl. rewrite last_item_snoc. reflexivity.
Qed.

Lemma trace_visited_more (st : store) (ys : list route) (st' : store)
    (t : Transceiver) :
  trace_post st ys st' -> py_in t (visited st) = true ->
  py_in t (visited st') = true.
Proof.
  intros [_ [vs [Hv _]]] Hin. rewrite Hv. apply py_in_app. exact Hin.
Qed.

Lemma for_neighbours_trace (all : registry)
    (rec : Transceiver -> store -> outcome (list route * store))
    (rt : route) (last : Transceiver) :
  (forall t rs r vs v ys st',
      rec t (mkStore (rs ++ [r]) (vs ++ [v])) = Done (ys, st') ->
      trace_post (mkStore (rs ++ [r]) (vs ++ [v])) ys st') ->
  last_item rt = Some last ->
  forall ts st ys st',
    incl ts (neighbours all last) -> In rt (routes st) ->
    for_neighbours rec rt ts st = Done (ys, st') ->
    trace_post st ys st'.
Proof.
  intros Hrec Hlast ts st ys st' Hts Hrt Hrun.
  apply (for_neighbours_rule all (fun _ => True) trace_post)
    with (rec := rec) (rt := rt) (last := last) (ts := ts); try assumption.
  - intros s _. apply trace_nil.
  - apply trace_app.
  - trivial.
  - apply trace_grows.
  - intros s r l t _ _ _ _ _. apply trace_visit.
  - intros t rs r vs v ys0 st0 _ H. eapply Hrec. exact H.
  - exact I.
Qed.

(** When the loop over the neighbours of [last] is over, all of them are
    in the visited list. *)
Lemma for_neighbours_visits_all (all : registry)
    (rec : Transceiver -> store -> outcome (list route * store))
    (rt : route) (last : Transceiver) :
  (forall t rs r vs v ys st',
      rec t (mkStore (rs ++ [r]) (vs ++ [v])) = Done (ys, st') ->
      trace_post (mkStore (rs ++ [r]) (vs ++ [v])) ys st') ->
  last_item rt = Some last ->
  forall ts st ys st',
    incl ts (neighbours all last) -> In rt (routes st) ->
    for_neighbours rec rt ts st = Done (ys, st') ->
    forall t, In t ts -> py_in t (visited st') = true.
Proof.
  intros Hrec Hlast.
  induction ts as [| u ts IH]; intros st ys st' Hts Hrt Hrun t Ht; [destruct Ht|].
  assert (Hts' : incl ts (neighbours all last)).
  { intros w Hw. apply Hts. right. exact Hw. }
  simpl in Hrun. destruct (py_in u (visited st)) eqn:Evis.
  - destruct Ht as [<- | Ht].
    + eapply trace_visited_more; [|exact Evis].
      eapply for_neighbours_trace; eassumption.
    + eapply IH; eassumption.
  - set (st1 := mkStore (routes st ++ [rt ++ [u]]) (visited st ++ [u])) in *.
    destruct (rec u st1) as [[ys1 st2] | |] eqn:Erec; try discriminate.
    assert (Ht1 : trace_post st1 ys1 st2) by (apply (Hrec u); exact Erec).
    assert (Hrt2 : In rt (routes st2)).
    { apply (trace_grows _ _ _ Ht1). unfold st1. cbn [routes].
      apply in_or_app. left. exact Hrt. }
    destruct (for_neighbours rec rt ts st2) as [[zs st3] | |] eqn:Erest;
      try discriminate.
    injection Hrun as _ <-.
    destruct Ht as [<- | Ht].
    + eapply trace_visited_more.
      * eapply for_neighbours_trace; [exact Hrec | exact Hlast | exact Hts'
                                      | exact Hrt2 | exact Erest].
      * eapply trace_visited_more; [exact Ht1|].
        unfold st1. cbn [visited]. apply py_in_self.
    + eapply IH; [exact Hts' | exact Hrt2 | exact Erest | exact Ht].
Qed.

(** When the loop over the routes started at position [i] is over, every
    route from position [i] on is closed. *)
Lemma for_routes_closes (all : registry) :
  forall fuel i st ys st',
    for_routes all fuel i st = Done (ys, st') ->
    forall j r, (i <= j)%nat -> nth_error (routes st') j = Some r ->
                closed all st' r.
Proof.
  induction fuel as [| fuel IH]; intros i st ys st' Hrun j r Hij Hj;
    [discriminate|].
  simpl in Hrun. destruct (nth_error (routes st) i) as [rt|] eqn:Ert.
  - destruct (last_item rt) as [last|] eqn:Elast; [|discriminate].
    match type of Hrun with
    | context [for_neighbours ?f rt _ st] => set (rec := f) in *
    end.
    assert (Hrec : forall t rs r0 vs v ys0 st0,
               rec t (mkStore (rs ++ [r0]) (vs ++ [v])) = Done (ys0, st0) ->
               trace_post (mkStore (rs ++ [r0]) (vs ++ [v])) ys0 st0).
    { intros t rs r0 vs v ys0 st0 H. unfold rec in H.
      cbn [routes visited] in H. rewrite !py_or_snoc in H.
      destruct (for_routes_trace _ _ _ _ _ _ H) as [H1 H2].
      split; assumption. }
    assert (Hrt : In rt (routes st)) by (eapply nth_error_In; exact Ert).
    destruct (for_neighbours rec rt (neighbours all last) st)
      as [[ys1 st1] | |] eqn:Einner; try discriminate.
    destruct (for_routes all fuel (S i) st1) as [[zs st2] | |] eqn:Enext;
      try discriminate.
    injection Hrun as _ <-.
    destruct (Nat.eq_dec j i) as [-> | Hne].
    + assert (Ht1 : trace_post st ys1 st1).
      { eapply for_neighbours_trace; try eassumption. apply incl_refl. }
      destruct (for_routes_trace _ _ _ _ _ _ Enext) as [Hr2 [vs2 [Hv2 _]]].
      assert (Hr : r = rt).
      { destruct Ht1 as [Hr1 _]. rewrite Hr2, Hr1, <- app_assoc in Hj.
        rewrite nth_error_app1 in Hj
          by (apply nth_error_Some; rewrite Ert; discriminate).
        rewrite Ert in Hj. injection Hj as <-. reflexivity. }
      subst r. intros l t Hl Ht. rewrite Elast in Hl. injection Hl as <-.
      rewrite Hv2. apply py_in_app.
      eapply for_neighbours_visits_all; try eassumption. apply incl_refl.
    + apply (IH (S i) st1 zs st2 Enext j r); [lia | exact Hj].
  - injection Hrun as _ <-.
    apply nth_error_None in Ert.
    assert (Hlt : (j < length (routes st))%nat).
    { apply nth_error_Some. rewrite Hj. discriminate. }
    lia.
Qed.

(** Only registered transceivers enter the visited list and the routes. *)
Lemma for_routes_registered (all : registry) (fuel i : nat) (st st' : store)
    (ys : list route) :
  incl (visited st) all /\ Forall (fun r : route => incl r all) (routes st) ->
  for_routes all fuel i st = Done (ys, st') ->
  incl (visited st') all /\ Forall (fun r : route => incl r all) (routes st').
Proof.
  intros Hok Hrun.
  apply (for_routes_rule all
           (fun st => incl (visited st) all
                      /\ Forall (fun r : route => incl r all) (routes st))
           (fun st _ st' =>
              incl (routes st) (routes st')
              /\ incl (visited st') all
              /\ Forall (fun r : route => incl r all) (routes st')))
    in Hrun; [apply Hrun | | | | | | exact Hok].
  - intros s Hs. split; [apply incl_refl | exact Hs].
  - intros s ys1 s1 zs s2 [Hi1 _] [Hi2 Hs2]. split; [|exact Hs2].
    eapply incl_tran; eassumption.
  - intros s ys1 s1 _ [_ Hs1]. exact Hs1.
  - intros s ys1 s1 [Hi _]. exact Hi.
  - intros s rt last t [Hv Hr] Hrt Hlast Hnb Hnot.
    apply neighbours_In in Hnb as [Hin _]. cbn [routes visited].
    split; [apply incl_appl, incl_refl|]. split.
    + apply incl_app; [exact Hv|]. intros u [<- | []]. exact Hin.
    + apply Forall_app. split; [exact Hr|]. constructor; [|constructor].
      rewrite Forall_forall in Hr.
      apply incl_app; [apply Hr; exact Hrt|]. intros u [<- | []]. exact Hin.
Qed.

Lemma numbered_NoDup (all : registry) : numbered all -> NoDup (map nr all).
Proof. unfold numbered. intros ->. apply seq_NoDup. Qed.

Lemma nr_injective (all : registry) (a b : Transceiver) :
  NoDup (map nr all) -> In a all -> In b all -> nr a = nr b -> a = b.
Proof.
  induction all as [| c all IH]; intros Hnd Ha Hb Heq; [destruct Ha|].
  simpl in Hnd. apply NoDup_cons_iff in Hnd as [Hnot Hnd].
  destruct Ha as [-> | Ha], Hb as [-> | Hb].
  - reflexivity.
  - exfalso. apply Hnot. rewrite Heq. apply in_map. exact Hb.
  - exfalso. apply Hnot. rewrite <- Heq. apply in_map. exact Ha.
  - apply IH; assumption.
Qed.

Lemma numbered_build (all : registry) (ds : list TransceiverData)
    (ts : list Transceiver) (all' : registry) :
  numbered all -> build all ds = (ts, all') ->
  all' = all ++ ts /\ numbered all' /\ length ts = length ds.
Proof.
  intros Hall Hb.
  destruct (build_spec ds all) as [ts' [Hb' [_ [_ Hnr]]]].
  rewrite Hb in Hb'. injection Hb' as <- ->.
  assert (Hlen : length ts = length ds).
  { apply (f_equal (@length _)) in Hnr.
    rewrite length_map, length_seq in Hnr. exact Hnr. }
  split; [reflexivity|]. split; [|exact Hlen].
  unfold numbered in *. rewrite map_app, Hall, Hnr, length_app, Hlen.
  symmetry. apply seq_app.
Qed.

(** The ends of the routes in the worklist are the visited transceivers. *)
Lemma visited_has_route (self : Transceiver) (ys : list route)
    (vs : list Transceiver) (v : Transceiver) :
  map last_item ys = map Some vs -> In v (self :: vs) ->
  exists j r, nth_error ([self] :: ys) j = Some r /\ last_item r = Some v.
Proof.
  intros Hmap [<- | Hv].
  - exists 0%nat, [self]. split; reflexivity.
  - destruct (In_nth_error _ _ Hv) as [j Hj].
    assert (Hl : nth_error (map last_item ys) j = Some (Some v)).
    { rewrite Hmap, nth_error_map, Hj. reflexivity. }
    rewrite nth_error_map in Hl.
    destruct (nth_error ys j) as [r|] eqn:Er; [|discriminate].
    injection Hl as Hl. exists (S j), r. split; assumption.
Qed.

(** A finished traversal has visited the whole component of its start. *)
Lemma component_visited (all : registry) (fuel : nat) (self : Transceiver)
    (ys : list route) (st' : store) :
  NoDup (map nr all) -> In self all ->
  generate_possible_routes all fuel self None None = Done (ys, st') ->
  forall t, connected all self t -> In t (visited st').
Proof.
  unfold generate_possible_routes. cbn [py_or_arg]. intros Hnd Hself Hrun.
  assert (Hclosed := for_routes_closes all _ _ _ _ _ Hrun).
  assert (Hreg : incl (visited st') all).
  { eapply for_routes_registered; [|exact Hrun]. cbn [routes visited]. split.
    - intros u [<- | []]. exact Hself.
    - constructor; [|constructor]. intros u [<- | []]. exact Hself. }
  destruct (for_routes_trace _ _ _ _ _ _ Hrun) as [Hroutes [vs [Hvis Hlast]]].
  cbn [routes visited] in Hroutes, Hvis.
  assert (Hstart : In self (visited st')) by (rewrite Hvis; left; reflexivity).
  assert (Hstep : forall b c,
             In b (visited st') -> In c all -> is_neighbour b c = true ->
             same_object b c = false -> In c (visited st')).
  { intros b c Hb Hin Hnb Hdiff. rewrite Hvis in Hb.
    destruct (visited_has_route self ys vs b Hlast Hb) as [j [r [Hj Hl]]].
    assert (Hc : py_in c (visited st') = true).
    { apply (Hclosed j r (Nat.le_0_l j)) with (l := b).
      - rewrite Hroutes. exact Hj.
      - exact Hl.
      - unfold neighbours. apply filter_In. split; [exact Hin|].
        rewrite Hnb, Hdiff. reflexivity. }
    apply py_in_iff in Hc. apply in_map_iff in Hc as [v [Hnr Hv]].
    assert (Hvc : v = c).
    { apply (nr_injective all); try assumption. apply Hreg. exact Hv. }
    rewrite <- Hvc. exact Hv. }
  clear - Hstart Hstep. intros t Hconn.
  induction Hconn as [a | a b c Hab IH Hin Hnb Hdiff]; [exact Hstart|].
  apply (Hstep b c); try assumption. apply IH; assumption.
Qed.

(** The routes yielded end exactly at the transceivers of the start's
    component, the start apart. *)
Lemma generated_routes_ends (all : registry) (fuel : nat) (self : Transceiver)
    (ys : list route) (st' : store) :
  NoDup (map nr all) -> In self all ->
  generate_possible_routes all fuel self None None = Done (ys, st') ->
  forall t,
    (exists r, In r ys /\ last_item r = Some t)
    <-> (connected all self t /\ same_object self t = false).
Proof.
  intros Hnd Hself Hrun t.
  assert (Hcomp := component_visited all fuel self ys st' Hnd Hself Hrun).
  assert (Hreach := generated_routes_reach all fuel self ys st' Hrun).
  unfold generate_possible_routes in Hrun. cbn [py_or_arg] in Hrun.
  assert (Hvnd : NoDup (map nr (visited st'))).
  { eapply for_routes_visited_nodup; [|exact Hrun].
    simpl. constructor; [intros [] | constructor]. }
  destruct (for_routes_trace _ _ _ _ _ _ Hrun) as [_ [vs [Hvis Hlast]]].
  cbn [visited] in Hvis. rewrite Hvis in Hvnd. simpl in Hvnd.
  apply NoDup_cons_iff in Hvnd as [Hnot _].
  split.
  - intros [r [Hr Hl]].
    destruct (Hreach r Hr) as [l [Hl' Hconn]].
    rewrite Hl in Hl'. injection Hl' as <-. split; [exact Hconn|].
    assert (Ht : In t vs).
    { assert (H : In (Some t) (map Some vs)).
      { rewrite <- Hlast, <- Hl. apply in_map. exact Hr. }
      apply in_map_iff in H as [u [Hu Hin]]. injection Hu as <-. exact Hin. }
    unfold same_object. apply Nat.eqb_neq. intro Heq.
    apply Hnot. rewrite Heq. apply in_map. exact Ht.
  - intros [Hconn Hdiff].
    specialize (Hcomp t Hconn). rewrite Hvis in Hcomp.
    destruct Hcomp as [<- | Ht].
    + rewrite same_object_refl in Hdiff. discriminate.
    + assert (H : In (Some t) (map last_item ys)).
      { rewrite Hlast. apply in_map. exact Ht. }
      apply in_map_iff in H as [r [Hl Hr]]. exists r. split; assumption.
Qed.

(** ** Further properties: which route [find_route] returns *)

Lemma first_covering_none (ys : list route) (b : Point) :
  first_covering ys b = Done None -> none_covers ys b.
Proof.
  induction ys as [| rt ys IH]; intros Hrun r l Hr Hl; [destruct Hr|].
  simpl in Hrun. destruct (last_item rt) as [last|] eqn:El; [|discriminate].
  destruct (covers_point last b) eqn:Ec; [discriminate|].
  destruct Hr as [<- | Hr].
  - rewrite El in Hl. injection Hl as <-. exact Ec.
  - apply (IH Hrun r l Hr Hl).
Qed.

Lemma first_covering_first (ys : list route) (b : Point) (r : route) :
  first_covering ys b = Done (Some r) ->
  exists ys1 ys2, ys = ys1 ++ r :: ys2 /\ none_covers ys1 b.
Proof.
  induction ys as [| rt ys IH]; [discriminate|]. simpl.
  destruct (last_item rt) as [last|] eqn:El; [|discriminate].
  destruct (covers_point last b) eqn:Ec.
  - intro H. injection H as <-. exists [], ys. split; [reflexivity|].
    intros r' l [].
  - intro H. destruct (IH H) as [ys1 [ys2 [-> Hnone]]].
    exists (rt :: ys1), ys2. split; [reflexivity|].
    intros r' l [<- | Hr'] Hl.
    + rewrite El in Hl. injection Hl as <-. exact Ec.
    + apply (Hnone r' l Hr' Hl).
Qed.

Lemma search_none (all : registry) (fuel : nat) (b : Point) :
  forall starts,
    search all fuel starts b = Done None ->
    forall s, In s starts ->
      exists ys st',
        generate_possible_routes all fuel s None None = Done (ys, st')
        /\ none_covers ys b.
Proof.
  induction starts as [| s0 starts IH]; intros Hrun s Hs; [destruct Hs|].
  simpl in Hrun.
  destruct (generate_possible_routes all fuel s0 None None)
    as [[ys st'] | |] eqn:Egen; try discriminate.
  destruct (first_covering ys b) as [[r|] | |] eqn:Efirst; try discriminate.
  destruct Hs as [<- | Hs].
  - exists ys, st'. split; [exact Egen|]. apply first_covering_none. exact Efirst.
  - apply IH; assumption.
Qed.

Lemma search_first (all : registry) (fuel : nat) (b : Point) (r : route) :
  forall starts,
    search all fuel starts b = Done (Some r) ->
    exists pre s post ys1 ys2 st',
      starts = pre ++ s :: post
      /\ generate_possible_routes all fuel s None None
         = Done (ys1 ++ r :: ys2, st')
      /\ none_covers ys1 b
      /\ forall s', In s' pre ->
           exists ys' st'',
             generate_possible_routes all fuel s' None None = Done (ys', st'')
             /\ none_covers ys' b.
Proof.
  induction starts as [| s0 starts IH]; [discriminate|]. simpl.
  destruct (generate_possible_routes all fuel s0 None None)
    as [[ys st'] | |] eqn:Egen; try discriminate.
  destruct (first_covering ys b) as [[r'|] | |] eqn:Efirst; try discriminate.
  - intro H. injection H as ->.
    destruct (first_covering_first _ _ _ Efirst) as [ys1 [ys2 [-> Hnone]]].
    exists [], s0, starts, ys1, ys2, st'.
    split; [reflexivity|]. split; [exact Egen|]. split; [exact Hnone|].
    intros s' [].
  - intro H.
    destruct (IH H) as [pre [s [post [ys1 [ys2 [st0 [-> [Hg [Hn Hpre]]]]]]]]].
    exists (s0 :: pre), s, post, ys1, ys2, st0.
    split; [reflexivity|]. split; [exact Hg|]. split; [exact Hn|].
    intros s' [<- | Hs'].
    + exists ys, st'. split; [exact Egen|].
      apply first_covering_none. exact Efirst.
    + apply Hpre. exact Hs'.
Qed.

(** X6. Every route the generator yields, when started with default
    arguments at a registered transceiver, begins at the start, links
    neighbours, repeats no transceiver and holds registered transceivers
    only. *)
Theorem yielded_routes_are_simple_paths (all : registry) (fuel : nat)
    (self : Transceiver) (ys : list route) (st' : store) (r : route) :
  In self all ->
  generate_possible_routes all fuel self None None = Done (ys, st') ->
  In r ys ->
  hd_error r = Some self /\ linked r /\ NoDup (map nr r) /\ incl r all.
Proof.
  intros Hself Hrun Hr.
  destruct (generated_routes_ok all fuel self ys st' Hrun r Hr)
    as [Hhd [Hl [Hnd _]]].
  split; [exact Hhd|]. split; [exact Hl|]. split; [exact Hnd|].
  unfold generate_possible_routes in Hrun. cbn [py_or_arg] in Hrun.
  assert (Hreg : incl (visited st') all
                 /\ Forall (fun r : route => incl r all) (routes st')).
  { eapply for_routes_registered; [|exact Hrun]. cbn [routes visited]. split.
    - intros u [<- | []]. exact Hself.
    - constructor; [|constructor]. intros u [<- | []]. exact Hself. }
  destruct Hreg as [_ Hreg]. rewrite Forall_forall in Hreg. apply Hreg.
  apply for_routes_trace in Hrun as [Hroutes _]. rewrite Hroutes.
  apply in_or_app. right. exact Hr.
Qed.

Lemma yielded_routes_are_simple_paths_witness :
  In (on_axis 0 1) [on_axis 0 1; on_axis 4 2]
  /\ linked [on_axis 0 1; on_axis 4 2]
  /\ incl [on_axis 0 1; on_axis 4 2] [on_axis 0 1; on_axis 4 2].
Proof.
  assert (Hin : In (on_axis 0 1) [on_axis 0 1; on_axis 4 2])
    by (left; reflexivity).
  split; [exact Hin|].
  destruct (yielded_routes_are_simple_paths _ _ _ _ _
              [on_axis 0 1; on_axis 4 2] Hin generate_pair
              (or_introl eq_refl)) as [_ [Hl [_ Hi]]].
  split; [exact Hl | exact Hi].
Defined.

(** X7. In a registry numbered by [__init__], the routes yielded from a
    registered start end exactly at the transceivers connected to the start
    in the overlap graph, the start itself apart: the traversal misses
    nothing it can reach. *)
Theorem yielded_routes_cover_component (all : registry) (fuel : nat)
    (self : Transceiver) (ys : list route) (st' : store) (t : Transceiver) :
  numbered all -> In self all ->
  generate_possible_routes all fuel self None None = Done (ys, st') ->
  ((exists r, In r ys /\ last_item r = Some t)
   <-> (connected all self t /\ same_object self t = false)).
Proof.
  intros Hnum Hself Hrun.
  apply (generated_routes_ends all fuel self ys st'); try assumption.
  apply numbered_NoDup. exact Hnum.
Qed.

Lemma yielded_routes_cover_component_witness :
  numbered [on_axis 0 1; on_axis 4 2]
  /\ ((exists r, In r [[on_axis 0 1; on_axis 4 2]]
                 /\ last_item r = Some (on_axis 4 2))
      <-> (connected [on_axis 0 1; on_axis 4 2] (on_axis 0 1) (on_axis 4 2)
           /\ same_object (on_axis 0 1) (on_axis 4 2) = false)).
Proof.
  assert (Hnum : numbered [on_axis 0 1; on_axis 4 2]) by reflexivity.
  split; [exact Hnum|].
  apply (yielded_routes_cover_component _ _ _ _ _ (on_axis 4 2) Hnum
           (or_introl eq_refl) generate_pair).
Defined.

Lemma build_incl (all : registry) (ds : list TransceiverData)
    (ts : list Transceiver) (all' : registry) :
  build all ds = (ts, all') -> all' = all ++ ts.
Proof.
  intro Hb. destruct (build_spec ds all) as [ts' [Hb' _]].
  rewrite Hb in Hb'. injection Hb' as <- ->. reflexivity.
Qed.

Lemma filter_none {A : Type} (f : A -> bool) (l : list A) :
  (forall a, In a l -> f a = false) -> filter f l = [].
Proof.
  induction l as [| a l IH]; intro H; [reflexivity|].
  simpl. rewrite (H a (or_introl eq_refl)). apply IH.
  intros b Hb. apply H. right. exact Hb.
Qed.

(** X8. Called on a registry numbered by [__init__], [find_route] returns
    a route exactly when some transceiver of the dataset that covers A is
    connected, in the overlap graph on the registry, to another transceiver
    that covers B. *)
Theorem find_route_finds_iff (all : registry) (data : Data)
    (ts : list Transceiver) (all' : registry) (k : nat) :
  numbered all ->
  build all (transceivers data) = (ts, all') ->
  ((exists r, find_route all (enough_fuel all' + k) data
              = (Done (Some r), all'))
   <-> (exists s t,
          In s ts /\ covers_point s (A data) = true
          /\ connected all' s t /\ same_object s t = false
          /\ covers_point t (B data) = true)).
Proof.
  intros Hnum Hb.
  destruct (numbered_build all _ ts all' Hnum Hb) as [Hall [Hnum' _]].
  assert (Hnd := numbered_NoDup all' Hnum').
  assert (Hreg : forall s, In s ts -> In s all').
  { intros s Hs. rewrite Hall. apply in_or_app. right. exact Hs. }
  split.
  - intros [r Hrun]. unfold find_route in Hrun. rewrite Hb in Hrun.
    injection Hrun as Hsearch.
    apply search_sound in Hsearch as [s [ys [st' [Hs [Hgen [Hr Hlast]]]]]].
    destruct Hlast as [t [Hl Hcov]].
    apply filter_In in Hs as [Hs HcovA].
    exists s, t. split; [exact Hs|]. split; [exact HcovA|].
    destruct (generated_routes_ends all' _ s ys st' Hnd (Hreg s Hs) Hgen t)
      as [Hto _].
    destruct Hto as [Hconn Hdiff]; [exists r; split; assumption|].
    split; [exact Hconn|]. split; [exact Hdiff | exact Hcov].
  - intros [s [t [Hs [HcovA [Hconn [Hdiff HcovB]]]]]].
    destruct (find_route_total all data) as [ts' [res [Hb' Hres]]].
    rewrite Hb in Hb'. injection Hb' as <- Hall'.
    rewrite <- Hall' in Hres. specialize (Hres k).
    destruct res as [r|]; [exists r; exact Hres|].
    exfalso. unfold find_route in Hres. rewrite Hb in Hres.
    injection Hres as Hsearch.
    assert (Hstart : In s (filter (fun t => covers_point t (A data)) ts)).
    { apply filter_In. split; assumption. }
    destruct (search_none _ _ _ _ Hsearch s Hstart) as [ys [st' [Hgen Hnone]]].
    destruct (generated_routes_ends all' _ s ys st' Hnd (Hreg s Hs) Hgen t)
      as [_ Hfrom].
    destruct Hfrom as [r [Hr Hl]]; [split; assumption|].
    rewrite (Hnone r t Hr Hl) in HcovB. discriminate.
Qed.

Lemma find_route_finds_iff_witness :
  numbered []
  /\ build [] (transceivers pair_data)
     = ([on_axis 0 1; on_axis 4 2], [on_axis 0 1; on_axis 4 2])
  /\ exists s t,
       In s [on_axis 0 1; on_axis 4 2]
       /\ covers_point s (A pair_data) = true
       /\ connected [on_axis 0 1; on_axis 4 2] s t
       /\ same_object s t = false
       /\ covers_point t (B pair_data) = true.
Proof.
  assert (Hnum : numbered []) by reflexivity.
  split; [exact Hnum|]. split; [exact build_pair|].
  apply (find_route_finds_iff [] pair_data _ _ 0 Hnum build_pair).
  exists [on_axis 0 1; on_axis 4 2].
  assert (H := find_route_pair).
  unfold find_route in *. rewrite build_pair in *.
  injection H as H. f_equal.
  eapply search_mono; [|exact H]. unfold enough_fuel. simpl. lia.
Defined.

(** X9. The route [find_route] returns is the first found: it comes from
    the first transceiver of the dataset, among those that cover A, whose
    traversal yields a route ending at a transceiver that covers B, and it
    is the first such route that this traversal yields. *)
Theorem find_route_returns_first (all : registry) (fuel : nat) (data : Data)
    (r : route) (all' : registry) :
  find_route all fuel data = (Done (Some r), all') ->
  exists ts pre s post ys1 ys2 st',
    build all (transceivers data) = (ts, all')
    /\ filter (fun t => covers_point t (A data)) ts = pre ++ s :: post
    /\ generate_possible_routes all' fuel s None None
       = Done (ys1 ++ r :: ys2, st')
    /\ none_covers ys1 (B data)
    /\ forall s', In s' pre ->
         exists ys' st'',
           generate_possible_routes all' fuel s' None None = Done (ys', st'')
           /\ none_covers ys' (B data).
Proof.
  unfold find_route. destruct (build all (transceivers data)) as [ts reg].
  intro H. injection H as Hsearch <-.
  destruct (search_first _ _ _ _ _ Hsearch)
    as [pre [s [post [ys1 [ys2 [st' Hrest]]]]]].
  exists ts, pre, s, post, ys1, ys2, st'. split; [reflexivity | exact Hrest].
Qed.

Lemma find_route_returns_first_witness :
  find_route [] 6 pair_data
  = (Done (Some [on_axis 0 1; on_axis 4 2]), [on_axis 0 1; on_axis 4 2])
  /\ exists ts pre s post,
       build [] (transceivers pair_data) = (ts, [on_axis 0 1; on_axis 4 2])
       /\ filter (fun t => covers_point t (A pair_data)) ts = pre ++ s :: post.
Proof.
  split; [exact find_route_pair|].
  destruct (find_route_returns_first [] 6 pair_data _ _ find_route_pair)
    as [ts [pre [s [post [ys1 [ys2 [st' [Hb [Hf _]]]]]]]]].
  exists ts, pre, s, post. split; [exact Hb | exact Hf].
Defined.

(** X10. When no transceiver of the dataset covers A (an empty dataset
    included), [find_route] returns [None] whatever the registry holds, and
    starts no traversal (no fuel is needed). *)
Theorem find_route_none_without_start (all : registry) (fuel : nat)
    (data : Data) (ts : list Transceiver) (all' : registry) :
  build all (transceivers data) = (ts, all') ->
  (forall t, In t ts -> covers_point t (A data) = false) ->
  find_route all fuel data = (Done None, all').
Proof.
  intros Hb Hnone. unfold find_route. rewrite Hb.
  rewrite filter_none by exact Hnone. reflexivity.
Qed.

Lemma find_route_none_without_start_witness :
  build [] (transceivers bridge_data) = ([on_axis 4 1], [on_axis 4 1])
  /\ find_route [] 0 bridge_data = (Done None, [on_axis 4 1]).
Proof.
  split; [exact build_bridge|].
  apply (find_route_none_without_start [] 0 bridge_data _ _ build_bridge).
  intros t [<- | []]. apply cov_far. lra.
Defined.

(** X11. [find_route] keeps the registry numbered: it leaves the earlier
    entries in place, appends one transceiver per entry of the dataset,
    and every registered transceiver still carries its position as number,
    so that no two share a number. *)
Theorem registry_stays_numbered (all : registry) (fuel : nat) (data : Data) :
  numbered all ->
  numbered (snd (find_route all fuel data))
  /\ NoDup (map nr (snd (find_route all fuel data)))
  /\ exists ts, snd (find_route all fuel data) = all ++ ts
                /\ length ts = length (transceivers data).
Proof.
  intro Hnum. unfold find_route.
  destruct (build all (transceivers data)) as [ts all'] eqn:Hb. cbn [snd].
  destruct (numbered_build all _ ts all' Hnum Hb) as [Hall [Hnum' Hlen]].
  split; [exact Hnum'|]. split; [apply numbered_NoDup; exact Hnum'|].
  exists ts. split; assumption.
Qed.

Lemma registry_stays_numbered_witness :
  numbered [] /\ numbered (snd (find_route [] 6 pair_data)).
Proof.
  assert (Hnum : numbered []) by reflexivity.
  split; [exact Hnum|].
  apply (registry_stays_numbered [] 6 pair_data Hnum).
Defined.

(** X12. A route returned by [find_route] has at least two transceivers,
    begins at a transceiver built from the dataset and holds registered
    transceivers only. *)
Theorem find_route_route_shape (all : registry) (fuel : nat) (data : Data)
    (r : route) (all' : registry) :
  find_route all fuel data = (Done (Some r), all') ->
  (2 <= length r)%nat
  /\ incl r all'
  /\ exists s ts,
       build all (transceivers data) = (ts, all')
       /\ In s ts /\ hd_error r = Some s.
Proof.
  intro Hrun. assert (Hlen := find_route_never_single _ _ _ _ _ Hrun).
  split; [exact Hlen|].
  unfold find_route in Hrun.
  destruct (build all (transceivers data)) as [ts reg] eqn:Hb.
  injection Hrun as Hsearch <-.
  apply search_sound in Hsearch as [s [ys [st' [Hs [Hgen [Hr _]]]]]].
  apply filter_In in Hs as [Hs _].
  assert (Hreg : In s reg).
  { rewrite (build_incl _ _ _ _ Hb). apply in_or_app. right. exact Hs. }
  destruct (generated_routes_ok _ _ _ _ _ Hgen r Hr) as [Hhd _].
  split.
  - unfold generate_possible_routes in Hgen. cbn [py_or_arg] in Hgen.
    assert (H : incl (visited st') reg
                /\ Forall (fun r : route => incl r reg) (routes st')).
    { eapply for_routes_registered; [|exact Hgen]. cbn [routes visited]. split.
      - intros u [<- | []]. exact Hreg.
      - constructor; [|constructor]. intros u [<- | []]. exact Hreg. }
    destruct H as [_ H]. rewrite Forall_forall in H. apply H.
    apply for_routes_trace in Hgen as [Hroutes _]. rewrite Hroutes.
    apply in_or_app. right. exact Hr.
  - exists s, ts. split; [reflexivity|]. split; assumption.
Qed.

Lemma find_route_route_shape_witness :
  find_route [] 6 pair_data
  = (Done (Some [on_axis 0 1; on_axis 4 2]), [on_axis 0 1; on_axis 4 2])
  /\ (2 <= length [on_axis 0 1; on_axis 4 2])%nat.
Proof.
  split; [exact find_route_pair|].
  apply (find_route_route_shape [] 6 pair_data _ _ find_route_pair).
Defined.
